(** * simulate-infra-upgrade: the AMI upgrade tool, verified against its spec

    A shallow embedding of the Go sources

    - [pkg/nodeclasses/nodeclasses.go]: [ParseAMIName], [UpdateNodeClass],
      [BuildNodeClassMap];
    - [pkg/amis/amis.go]: [ExtractVersions], [ParseDate];
    - [main.go]: the dry-run plan loop and the predicate handed to the
      node-claim monitor;

    followed by the theorems that settle the claims of the specification.

    Go strings are byte strings: they are modelled by [string], whose
    characters are the 256 values of [ascii].  Go maps are [gmap]s. *)

From Stdlib Require Import Strings.String Strings.Ascii.
From stdpp Require Import base option list sorting gmap strings.

Local Open Scope stdpp_scope.

(** ** Byte strings *)

Module Bytes.

(** Every byte of [s] satisfies [p]. *)
Fixpoint all (p : ascii → bool) (s : string) : bool :=
  match s with
  | EmptyString => true
  | String a s' => p a && all p s'
  end.

(** The Go slice expression [s[:n]]. *)
Definition take (n : nat) (s : string) : string := String.substring 0 n s.

(** The Go slice expression [s[n:]]. *)
Fixpoint drop (n : nat) (s : string) : string :=
  match n, s with
  | O, _ => s
  | S n', String _ s' => drop n' s'
  | S _, EmptyString => EmptyString
  end.

(** [strings.Split(s, sep)] for a one-byte separator: the pieces between
    the occurrences of [sep]; the empty string gives one empty piece. *)
Fixpoint Split (sep : ascii) (s : string) : list string :=
  match s with
  | EmptyString => [EmptyString]
  | String a s' =>
      if Ascii.eqb a sep then EmptyString :: Split sep s'
      else match Split sep s' with
           | w :: ws => String a w :: ws
           | [] => [String a EmptyString]
           end
  end.

(** [strings.Join(parts, sep)]. *)
Definition Join (parts : list string) (sep : string) : string :=
  String.concat sep parts.

(** [strings.TrimPrefix(s, prefix)]. *)
Fixpoint TrimPrefix_go (s prefix : string) {struct prefix}
    : option string :=
  match prefix, s with
  | EmptyString, _ => Some s
  | String c p', String a s' =>
      if Ascii.eqb a c then TrimPrefix_go s' p' else None
  | String _ _, EmptyString => None
  end.

Definition TrimPrefix (s prefix : string) : string :=
  default s (TrimPrefix_go s prefix).

Definition is_digit (a : ascii) : bool :=
  match a with
  | "0" | "1" | "2" | "3" | "4" | "5" | "6" | "7" | "8" | "9" => true
  | _ => false
  end%char.

End Bytes.

(** ** The fragment of Go's [regexp] package that the program uses

    Every pattern of the program is of the form [^ ... $], a sequence of
    literals, one-byte classes, greedy repetitions of a one-byte class and
    capture groups.  [exec] is the backtracking matcher for such sequences:
    a greedy star first tries to take one more byte and falls back to the
    rest of the pattern, which is Go's leftmost-first preference.  A
    position in the input is represented by the suffix that starts there;
    a capture group records the position where it is opened and where it
    is closed, as Go's matcher does.

    Go matches rune by rune on the UTF-8 decoding of the input.  The
    literals and the classes of the patterns are ASCII ([-], the digits,
    the newline), and no byte of a longer encoding is ASCII, so that
    matching byte by byte takes the same decisions. *)

Module Regexp.

Inductive node : Type :=
| Lit (c : ascii)            (* a literal byte *)
| Cls (p : ascii → bool)     (* one byte of a class *)
| Star (p : ascii → bool)    (* greedy [p*] *)
| Open                       (* [(] *)
| Close.                     (* [)] *)

Definition regexp : Type := list node.

(** Classes.  Go compiles with the Perl flags: a negated class matches a
    newline, the dot does not. *)
Definition not_hyphen (a : ascii) : bool := negb (Ascii.eqb a "-"%char).
Definition digit : ascii → bool := Bytes.is_digit.
Definition dot (a : ascii) : bool := negb (Ascii.eqb a "010"%char).

(** Pattern combinators. *)
Fixpoint lits (s : string) : regexp :=
  match s with
  | EmptyString => []
  | String c s' => Lit c :: lits s'
  end.
Definition plus (p : ascii → bool) : regexp := [Cls p; Star p].
Definition rep (n : nat) (p : ascii → bool) : regexp := replicate n (Cls p).
Definition group (r : regexp) : regexp := Open :: r ++ [Close].

(** [regexp.QuoteMeta(s)] as the pattern it stands for once compiled, for
    an ASCII [s]: every byte of [s] as a literal, the escaped ones
    included.  Outside ASCII the model does not apply: the compiler reads
    runes, so that it refuses a text that is not UTF-8 and lets the
    replacement character stand for any invalid byte. *)
Definition QuoteMeta (s : string) : regexp := lits s.

(** The text between two positions of the input. *)
Definition between (from to : string) : string :=
  Bytes.take (String.length from - String.length to) from.

(** [exec re opened caps s]: match the whole of [s] against [re];
    [opened] holds the start positions of the groups that are open,
    [caps] the text of the groups closed so far, last one first. *)
Fixpoint exec (re : regexp) (opened caps : list string) (s : string)
    : option (list string) :=
  match re with
  | [] =>
      match s with
      | EmptyString => Some (reverse caps)
      | String _ _ => None
      end
  | Lit c :: re' =>
      match s with
      | String a s' => if Ascii.eqb a c then exec re' opened caps s' else None
      | EmptyString => None
      end
  | Cls p :: re' =>
      match s with
      | String a s' => if p a then exec re' opened caps s' else None
      | EmptyString => None
      end
  | Star p :: re' =>
      (fix star (s : string) : option (list string) :=
         match s with
         | String a s' =>
             if p a then
               match star s' with
               | Some r => Some r
               | None => exec re' opened caps s
               end
             else exec re' opened caps s
         | EmptyString => exec re' opened caps s
         end) s
  | Open :: re' => exec re' (s :: opened) caps s
  | Close :: re' =>
      match opened with
      | from :: opened' => exec re' opened' (between from s :: caps) s
      | [] => None
      end
  end.

(** [re.FindStringSubmatch(s)] for an anchored pattern: the whole match
    followed by the text of the groups, or the nil slice. *)
Definition FindStringSubmatch (re : regexp) (s : string) : list string :=
  match exec re [] [] s with
  | Some caps => s :: caps
  | None => []
  end.

(** The rest of a pattern [re] refuses every input that starts with a
    byte of the class [p]. *)
Definition refuses (p : ascii → bool) (re : regexp)
    (opened caps : list string) : Prop :=
  ∀ a s, p a = true → exec re opened caps (String a s) = None.

(** The next input byte, if any, is outside of [p]. *)
Definition stops (p : ascii → bool) (t : string) : bool :=
  match t with
  | EmptyString => true
  | String a _ => negb (p a)
  end.

End Regexp.

(** ** encoding/json values

    What [json.Unmarshal] stores in an [interface{}]: [nil], [bool],
    [float64] (kept here by its literal), [string], [[]interface{}] and
    [map[string]interface{}]. *)

Module json.

#[local] Set Warnings "-register-all".

Inductive value : Type :=
| Null
| Bool (b : bool)
| Number (literal : string)
| Str (s : string)
| Array (elems : list value)
| Object (fields : gmap string value).

End json.

(** ** pkg/nodeclasses *)

Module nodeclasses.

Import Regexp.

(** One term of [spec.amiSelectorTerms]. *)
Record AMISelectorTerm : Type := {
  Name : string;
  Owner : string
}.

Record EC2NodeClass : Type := {
  APIVersion : string;
  Kind : string;
  Metadata_Name : string;
  Spec_AMISelectorTerms : list AMISelectorTerm
}.

Record NodeClassList : Type := { Items : list EC2NodeClass }.

Record AMIPattern : Type := {
  HasNodegroup : bool;
  Nodegroup : string;
  K8sVersion : string;
  Version : string
}.

(** A Go [error], by its message. *)
Definition error : Type := string.

(** [^domino-eks-([^-]+)-(1\.[0-9]+)-v([0-9]{8})$] *)
Definition reWithNodegroupVersion : regexp :=
  lits "domino-eks-" ++ group (plus not_hyphen) ++ lits "-"
    ++ group (lits "1." ++ plus digit) ++ lits "-v" ++ group (rep 8 digit).

(** [^domino-eks-(1\.[0-9]+)-v([0-9]{8})$] *)
Definition reWithoutNodegroupVersion : regexp :=
  lits "domino-eks-" ++ group (lits "1." ++ plus digit) ++ lits "-v"
    ++ group (rep 8 digit).

(** [^domino-eks-([^-]+)-(1\.[0-9]+)-.*$] *)
Definition reWithNodegroupWildcard : regexp :=
  lits "domino-eks-" ++ group (plus not_hyphen) ++ lits "-"
    ++ group (lits "1." ++ plus digit) ++ lits "-" ++ [Star dot].

(** [^domino-eks-(1\.[0-9]+)-.*$] *)
Definition reWithoutNodegroupWildcard : regexp :=
  lits "domino-eks-" ++ group (lits "1." ++ plus digit) ++ lits "-"
    ++ [Star dot].

(** [matches[i]]; the program indexes only slices whose length it has
    just checked. *)
Definition at_ (matches : list string) (i : nat) : string :=
  default EmptyString (matches !! i).

Definition ParseAMIName (amiName : string) : error + AMIPattern :=
  let matches := FindStringSubmatch reWithNodegroupVersion amiName in
  if decide (length matches = 4) then
    inr {| HasNodegroup := true; Nodegroup := at_ matches 1;
           K8sVersion := at_ matches 2; Version := at_ matches 3 |}
  else
  let matches := FindStringSubmatch reWithoutNodegroupVersion amiName in
  if decide (length matches = 3) then
    inr {| HasNodegroup := false; Nodegroup := "";
           K8sVersion := at_ matches 1; Version := at_ matches 2 |}
  else
  let matches := FindStringSubmatch reWithNodegroupWildcard amiName in
  if decide (length matches = 3) then
    inr {| HasNodegroup := true; Nodegroup := at_ matches 1;
           K8sVersion := at_ matches 2; Version := "" |}
  else
  let matches := FindStringSubmatch reWithoutNodegroupWildcard amiName in
  if decide (length matches = 2) then
    inr {| HasNodegroup := false; Nodegroup := "";
           K8sVersion := at_ matches 1; Version := "" |}
  else
    inl ("invalid AMI name format: " +:+ amiName).

(** The run-time panics that [UpdateNodeClass] can raise. *)
Inductive panic : Type :=
| InterfaceConversion      (* a failed one-result type assertion *)
| IndexOutOfRange.         (* an index beyond the length of a slice *)

(** What a call leaves behind: it returns its error value ([None] for
    [nil]), or it panics. *)
Inductive outcome : Type :=
| Returns (err : option error)
| Panics (cause : panic).

(** [x.(map[string]interface{})], the one-result form of the type
    assertion: it panics unless [x] holds a map.  A key that is absent
    from a map reads as the [nil] interface. *)
Definition assert_map (x : option json.value)
    : panic + gmap string json.value :=
  match x with
  | Some (json.Object m) => inr m
  | _ => inl InterfaceConversion
  end.

(** [x.([]interface{})], likewise. *)
Definition assert_slice (x : option json.value) : panic + list json.value :=
  match x with
  | Some (json.Array l) => inr l
  | _ => inl InterfaceConversion
  end.

Section UpdateNodeClass.

(** The commands the function runs and the codec it calls:
    [kubectl get ec2nodeclass <name> -o json] gives its output or
    fails; [json.Unmarshal] gives the decoded value or fails;
    [json.Marshal] gives the text or fails; [kubectl apply -f -]
    succeeds or fails on the text it is fed. *)
Variable kubectl_get : string → error + string.
Variable Unmarshal : string → error + json.value.
Variable Marshal : json.value → error + string.
Variable kubectl_apply : string → option error.

(** Decoding into a variable of type [map[string]interface{}]: an
    object fills the map, [null] leaves it nil (a nil map reads as
    the empty map), any other value is a type error. *)
Definition unmarshal_map (output : string)
    : error + gmap string json.value :=
  let mismatch (kind : string) : error :=
    "json: cannot unmarshal " +:+ kind
      +:+ " into Go value of type map[string]interface {}" in
  match Unmarshal output with
  | inl e => inl e
  | inr (json.Object m) => inr m
  | inr json.Null => inr ∅
  | inr (json.Bool _) => inl (mismatch "bool")
  | inr (json.Number _) => inl (mismatch "number")
  | inr (json.Str _) => inl (mismatch "string")
  | inr (json.Array _) => inl (mismatch "array")
  end.

Definition UpdateNodeClass (name newAMI : string) : outcome :=
  match kubectl_get name with
  | inl e => Returns (Some ("failed to get nodeclass " +:+ name +:+ ": " +:+ e))
  | inr output =>
  match unmarshal_map output with
  | inl e => Returns (Some ("failed to parse nodeclass JSON: " +:+ e))
  | inr nodeclass =>
  match assert_map (nodeclass !! "spec") with
  | inl cause => Panics cause
  | inr spec =>
  match assert_slice (spec !! "amiSelectorTerms") with
  | inl cause => Panics cause
  | inr amiSelectorTerms =>
  match amiSelectorTerms with
  | [] => Panics IndexOutOfRange
  | first :: others =>
  match assert_map (Some first) with
  | inl cause => Panics cause
  | inr term =>
      (* the maps are shared: the assignment is seen through [nodeclass] *)
      let term' := <["name" := json.Str newAMI]> term in
      let spec' :=
        <["amiSelectorTerms" := json.Array (json.Object term' :: others)]> spec in
      let nodeclass' := <["spec" := json.Object spec']> nodeclass in
      match Marshal (json.Object nodeclass') with
      | inl e => Returns (Some ("failed to marshal updated JSON: " +:+ e))
      | inr updatedJSON =>
          match kubectl_apply updatedJSON with
          | Some e => Returns (Some ("failed to apply changes: " +:+ e))
          | None => Returns None
          end
      end
  end end end end end end.

End UpdateNodeClass.

Module NodeClassInfo.
Record t : Type := {
  HasNodegroup : bool;
  Nodegroup : string
}.
End NodeClassInfo.

(** The body of the loop of [BuildNodeClassMap]: what one node class
    contributes to the map. *)
Definition register (nodeclassMap : gmap string NodeClassInfo.t)
    (nc : EC2NodeClass) : gmap string NodeClassInfo.t :=
  match Spec_AMISelectorTerms nc with
  | [] => nodeclassMap
  | term :: _ =>
      match ParseAMIName (Name term) with
      | inl _ => nodeclassMap
      | inr pattern =>
          let ng := Nodegroup pattern in
          let ng :=
            if negb (HasNodegroup pattern) then
              let nameParts := Bytes.Split "-" (Metadata_Name nc) in
              if bool_decide (3 ≤ length nameParts)
                 && bool_decide (at_ nameParts 0 = "domino")
                 && bool_decide (at_ nameParts 1 = "eks")
              then Bytes.Join (drop 2 nameParts) "-"
              else ng
            else ng in
          <[Metadata_Name nc :=
              {| NodeClassInfo.HasNodegroup := HasNodegroup pattern;
                 NodeClassInfo.Nodegroup := ng |}]> nodeclassMap
      end
  end.

Definition BuildNodeClassMap (nodeClasses : NodeClassList)
    : gmap string NodeClassInfo.t :=
  foldl register ∅ (Items nodeClasses).

(** Modelled from the spec: the declaration of [NodeClaimStatus] is not
    among the sources; the spec gives [{name, nodeClassName, age:
    duration, drifted: bool, reason: string}], and the monitor's
    predicate reads the fields [Name], [NodeClass], [Age], [Drifted] and
    [Reason].  [Age] is a [time.Duration], a count of nanoseconds. *)
Module NodeClaimStatus.
Record t : Type := {
  Name : string;
  NodeClass : string;
  Age : Z;
  Drifted : bool;
  Reason : string
}.
End NodeClaimStatus.

End nodeclasses.

(** ** The two calls into Go's [time] package made by [ParseDate] *)

Module time.

(** The civil time that [time.Parse] builds, in UTC. *)
Record Time : Type := {
  year : nat; month : nat; day : nat;
  hour : nat; min : nat; sec : nat; nsec : Z
}.

Definition digit_val (a : ascii) : nat := nat_of_ascii a - 48.

(** The value of a string of decimal digits. *)
Definition number (s : string) : nat :=
  foldl (λ n a, 10 * n + digit_val a) 0 (list_ascii_of_string s).

Definition isDigit (s : string) (i : nat) : bool :=
  match String.get i s with
  | Some a => Bytes.is_digit a
  | None => false
  end.

(** [getnum(s, fixed)]: a number of one or two digits, of exactly two
    when [fixed]; the rest of the input comes with it. *)
Definition getnum (s : string) (fixed : bool) : option (nat * string) :=
  if negb (isDigit s 0) then None
  else if negb (isDigit s 1) then
    if fixed then None
    else Some (number (Bytes.take 1 s), Bytes.drop 1 s)
  else Some (number (Bytes.take 2 s), Bytes.drop 2 s).

(** [skip(value, prefix)] for a one-byte prefix other than a space. *)
Definition skip (value : string) (c : ascii) : option string :=
  match value with
  | String a rest => if Ascii.eqb a c then Some rest else None
  | EmptyString => None
  end.

(** [atoi]: an optional sign, then digits up to the end. *)
Definition atoi (s : string) : option Z :=
  let '(neg, s) :=
    match s with
    | String "-" s' => (true, s')
    | String "+" s' => (false, s')
    | _ => (false, s)
    end in
  if Bytes.all Bytes.is_digit s
  then Some (if neg then (- Z.of_nat (number s))%Z else Z.of_nat (number s))
  else None.

Definition isLeap (y : nat) : bool :=
  (y mod 4 =? 0) && (negb (y mod 100 =? 0) || (y mod 400 =? 0)).

Definition daysIn (m y : nat) : nat :=
  match m with
  | 2 => if isLeap y then 29 else 28
  | 4 | 6 | 9 | 11 => 30
  | _ => 31
  end.

(** [time.Parse("2006-01-02T15:04:05.000Z", value)]; [None] stands for
    the error.  The layout is read as: a year of four digits, [-], a
    month of two digits, [-], a day of two digits, [T], an hour of one
    or two digits, [:], a minute of two digits, [:], a second of two
    digits, a period or a comma followed by exactly three bytes that
    [atoi] reads, the letter [Z], and nothing more. *)
Definition Parse (value : string) : option Time :=
  (* 2006 *)
  if negb ((4 <=? String.length value) && isDigit value 0) then None else
  let p := Bytes.take 4 value in
  if negb (Bytes.all Bytes.is_digit p) then None else
  let year := number p in
  value ← skip (Bytes.drop 4 value) "-";
  (* 01 *)
  '(month, value) ← getnum value true;
  if (month =? 0) || (12 <? month) then None else
  value ← skip value "-";
  (* 02 *)
  '(day, value) ← getnum value true;
  value ← skip value "T";
  (* 15 *)
  '(hour, value) ← getnum value false;
  if 24 <=? hour then None else
  value ← skip value ":";
  (* 04 *)
  '(min, value) ← getnum value true;
  if 60 <=? min then None else
  value ← skip value ":";
  (* 05 *)
  '(sec, value) ← getnum value true;
  if 60 <=? sec then None else
  (* .000 *)
  if String.length value <? 4 then None else
  match value with
  | String sep _ =>
      if negb (Ascii.eqb sep "." || Ascii.eqb sep ",") then None else
      ms ← atoi (Bytes.take 3 (Bytes.drop 1 value));
      if (ms <? 0)%Z then None else
      (* Z, then the end of the input *)
      value ← skip (Bytes.drop 4 value) "Z";
      if negb (String.length value =? 0) then None else
      if (day <? 1) || (daysIn month year <? day) then None else
      Some {| year := year; month := month; day := day; hour := hour;
              min := min; sec := sec; nsec := (ms * 1000000)%Z |}
  | EmptyString => None
  end.

(** A number below [10 ^ width], in decimal, padded with zeros. *)
Fixpoint pad (width n : nat) : string :=
  match width with
  | O => EmptyString
  | S w => pad w (n / 10) +:+ String (ascii_of_nat (48 + n mod 10)) EmptyString
  end.

(** [t.Format("2006-01-02 15:04")]. *)
Definition Format (t : Time) : string :=
  pad 4 (year t) +:+ "-" +:+ pad 2 (month t) +:+ "-" +:+ pad 2 (day t)
    +:+ " " +:+ pad 2 (hour t) +:+ ":" +:+ pad 2 (min t).

End time.

(** ** pkg/amis *)

Module amis.

Import Regexp.

Record AMIInfo : Type := {
  Name : string;
  ImageID : string;
  CreationDate : string
}.

Record VersionItem : Type := {
  Version : string;
  Date : string
}.

Definition error : Type := string.

(** [ParseDate]: the creation date as [YYYY-MM-DD HH:MM] when it parses,
    as it is otherwise. *)
Definition ParseDate (dateStr : string) : string :=
  match time.Parse dateStr with
  | None => dateStr
  | Some t => time.Format t
  end.

(** [^domino-eks-.*-<k8sVersion>-v([0-9]{8})$], the version quoted by
    [regexp.QuoteMeta], for an ASCII [k8sVersion] of a size that
    [regexp.MustCompile] accepts: it then succeeds, and the quoted text
    matches itself byte by byte.  The program passes the [K8sVersion] of a
    parsed name, which is made of ASCII digits and a period.  For another
    [k8sVersion], [regexp.MustCompile] may panic, which this pattern does
    not tell. *)
Definition patternWithNodegroup (k8sVersion : string) : regexp :=
  lits "domino-eks-" ++ [Star dot] ++ lits "-" ++ QuoteMeta k8sVersion
    ++ lits "-v" ++ group (rep 8 digit).

(** [^domino-eks-<k8sVersion>-v([0-9]{8})$], for the same [k8sVersion]. *)
Definition patternWithoutNodegroup (k8sVersion : string) : regexp :=
  lits "domino-eks-" ++ QuoteMeta k8sVersion ++ lits "-v"
    ++ group (rep 8 digit).

(** The first lines of the loop body: the slice [matches] as it is when
    its length is compared with 2. *)
Definition matchesOf (k8sVersion name : string) : list string :=
  let matches := FindStringSubmatch (patternWithNodegroup k8sVersion) name in
  if decide (length matches ≠ 2)
  then FindStringSubmatch (patternWithoutNodegroup k8sVersion) name
  else matches.

(** The date version that the loop body reads from an image name, if
    the name matches. *)
Definition versionOf (k8sVersion name : string) : option string :=
  let matches := matchesOf k8sVersion name in
  if decide (length matches = 2) then Some (nodeclasses.at_ matches 1)
  else None.

(** An image name matches one of the two patterns. *)
Definition matching (k8sVersion name : string) : Prop :=
  is_Some (exec (patternWithNodegroup k8sVersion) [] [] name)
  ∨ is_Some (exec (patternWithoutNodegroup k8sVersion) [] [] name).

(** Go's [a > b] on strings: the order of the bytes. *)
Definition gt (a b : string) : bool := String.ltb b a.

(** The body of the loop over the catalog. *)
Definition record (k8sVersion : string) (versionSet : gmap string string)
    (ami : AMIInfo) : gmap string string :=
  let matches := matchesOf k8sVersion (Name ami) in
  if decide (length matches = 2) then
    let version := nodeclasses.at_ matches 1 in
    match versionSet !! version with
    | Some existingDate =>
        if gt (CreationDate ami) existingDate
        then <[version := CreationDate ami]> versionSet
        else versionSet
    | None => <[version := CreationDate ami]> versionSet
    end
  else versionSet.

(** What the map is to hold for a version after the loop over the
    catalogue [amis]: nothing when no image has the version, and
    otherwise the creation date of one of the images that have it, which
    none of the others exceeds. *)
Definition latest (k8sVersion : string) (amis : list AMIInfo)
    (version : string) (entry : option string) : Prop :=
  match entry with
  | Some dateStr =>
      (∃ ami, ami ∈ amis ∧ versionOf k8sVersion (Name ami) = Some version
              ∧ CreationDate ami = dateStr)
      ∧ ∀ ami, ami ∈ amis → versionOf k8sVersion (Name ami) = Some version →
               String.le (CreationDate ami) dateStr
  | None =>
      ∀ ami, ami ∈ amis → versionOf k8sVersion (Name ami) ≠ Some version
  end.

Definition versionSetOf (amis : list AMIInfo) (k8sVersion : string)
    : gmap string string :=
  foldl (record k8sVersion) ∅ amis.

(** The comparison handed to [sort.Slice] is [Version i > Version j]:
    in the sorted slice no element is greater than one before it. *)
Definition descending (a b : VersionItem) : Prop :=
  String.le (Version b) (Version a).

#[global] Instance descending_dec : RelDecision descending.
Proof. intros a b. unfold descending. apply _. Defined.

(** The element appended for one entry of the map. *)
Definition versionItem (entry : string * string) : VersionItem :=
  {| Version := entry.1; Date := ParseDate entry.2 |}.

(** The slice built from the map entries met in the order [entries],
    then sorted. *)
Definition versionItemsOf (entries : list (string * string))
    : list VersionItem :=
  merge_sort descending (versionItem <$> entries).

(** Go leaves the order in which a map is ranged over unspecified;
    [map_to_list] is one such order, and the sorted slice does not
    depend on it (see [ExtractVersions_order]). *)
Definition ExtractVersions (amis : list AMIInfo) (k8sVersion : string)
    : error + list VersionItem :=
  let versionSet := versionSetOf amis k8sVersion in
  if decide (size versionSet = 0) then
    inl "no matching AMI versions found"
  else
    inr (versionItemsOf (map_to_list versionSet)).

End amis.

(** ** main.go *)

Module main.

Import nodeclasses.

(** The local type [change] of [main]. *)
Record change : Type := {
  nodeclassName : string;
  oldAMI : string;
  newAMI : string
}.

(** What the program writes on its standard output, line by line; the
    decoration of the lines is left out, and the age of a node claim is
    kept as the duration that [formatAge] renders. *)
Inductive line : Type :=
| SkippingUnparsed (name : string)   (* could not parse AMI name *)
| SkippingNoInfo (name : string)     (* no nodeclass info found *)
| ClearScreen
| Title
| Rule
| Blank
| NoNodeclaimsFound
| PressCtrlC
| StatusOf (drifted : bool) (name nodeClass : string) (age : Z)
| StatusText (statusText : string)
| Waiting (driftedCount total : nat)
| AllUndrifted.

(** The new AMI name that the plan loop constructs from the node
    class's [info] and the parsed [pattern] (the two [fmt.Sprintf]
    calls). *)
Definition constructNewAMI (info : NodeClassInfo.t) (pattern : AMIPattern)
    (versionDate : string) : string :=
  if NodeClassInfo.HasNodegroup info then
    "domino-eks-" +:+ NodeClassInfo.Nodegroup info +:+ "-"
      +:+ K8sVersion pattern +:+ "-v" +:+ versionDate
  else
    "domino-eks-" +:+ K8sVersion pattern +:+ "-v" +:+ versionDate.

(** The body of the dry-run loop: the changes collected and the lines
    printed so far, extended by one node class. *)
Definition collect (nodeclassMap : gmap string NodeClassInfo.t)
    (versionDate : string) (acc : list change * list line)
    (nc : EC2NodeClass) : list change * list line :=
  let '(changes, out) := acc in
  match Spec_AMISelectorTerms nc with
  | [] => (changes, out)
  | term :: _ =>
      match ParseAMIName (Name term) with
      | inl _ => (changes, out ++ [SkippingUnparsed (Metadata_Name nc)])
      | inr pattern =>
          let oldAMI := Name term in
          match nodeclassMap !! Metadata_Name nc with
          | None => (changes, out ++ [SkippingNoInfo (Metadata_Name nc)])
          | Some info =>
              let newAMI := constructNewAMI info pattern versionDate in
              (changes ++ [{| nodeclassName := Metadata_Name nc;
                              oldAMI := oldAMI; newAMI := newAMI |}], out)
          end
      end
  end.

Definition collectChanges (nodeClasses : NodeClassList)
    (nodeclassMap : gmap string NodeClassInfo.t) (versionDate : string)
    : list change * list line :=
  foldl (collect nodeclassMap versionDate) ([], []) (Items nodeClasses).

(** The dry run of [main] for the version picked in the list: the map
    is built from the node classes, the [v] of the picked item is taken
    off, the changes are collected. *)
Definition dryRun (nodeClasses : NodeClassList) (selectedVersion : string)
    : list change * list line :=
  let nodeclassMap := BuildNodeClassMap nodeClasses in
  let versionDate := Bytes.TrimPrefix selectedVersion "v" in
  collectChanges nodeClasses nodeclassMap versionDate.

(** The loop over the statuses in the function handed to
    [WaitForNodeClaimsUndrifted]: the lines printed and the count of
    drifted node claims. *)
Definition showStatus (acc : list line * nat)
    (status : NodeClaimStatus.t) : list line * nat :=
  let '(out, driftedCount) := acc in
  let statusText :=
    if NodeClaimStatus.Drifted status then
      if bool_decide (NodeClaimStatus.Reason status ≠ "")
      then "Drifted" +:+ " (" +:+ NodeClaimStatus.Reason status +:+ ")"
      else "Drifted"
    else "Undrifted" in
  let driftedCount :=
    if NodeClaimStatus.Drifted status then S driftedCount else driftedCount in
  (out ++ [StatusOf (NodeClaimStatus.Drifted status)
             (NodeClaimStatus.Name status) (NodeClaimStatus.NodeClass status)
             (NodeClaimStatus.Age status);
           StatusText statusText; Blank],
   driftedCount).

(** The function literal that [waitForNodeClaims] hands to
    [WaitForNodeClaimsUndrifted]: the lines it prints and the boolean it
    returns. *)
Definition onStatuses (statuses : list NodeClaimStatus.t)
    : list line * bool :=
  let out := [ClearScreen; Title; Rule] in
  if decide (length statuses = 0) then
    (out ++ [NoNodeclaimsFound; Blank; PressCtrlC], true)
  else
    let '(out, driftedCount) := foldl showStatus (out, 0) statuses in
    let out := out ++ [Rule] in
    let out :=
      if decide (0 < driftedCount)
      then out ++ [Waiting driftedCount (length statuses)]
      else out ++ [AllUndrifted] in
    (out ++ [PressCtrlC], true).

End main.

(** ** The name grammar of the specification

    The segments of the forms [domino-eks-<g>-<p>-v<d>] and
    [domino-eks-<p>-v<d>]: a group is a segment, one byte at least,
    without hyphen; a platform version is [1.N], with [N] one digit at
    least; a date version has eight digits. *)

Module Grammar.

Definition nonempty (s : string) : bool :=
  match s with EmptyString => false | String _ _ => true end.

Definition is_group (g : string) : bool :=
  nonempty g && Bytes.all Regexp.not_hyphen g.

Definition is_platform (p : string) : bool :=
  match p with
  | String c1 (String c2 n) =>
      Ascii.eqb c1 "1" && Ascii.eqb c2 "." && nonempty n
        && Bytes.all Regexp.digit n
  | _ => false
  end.

Definition is_date (d : string) : bool :=
  bool_decide (String.length d = 8) && Bytes.all Regexp.digit d.

(** The text after the last hyphen of a pending name: whatever the dot
    matches, the star of a wildcard for one. *)
Definition is_rest (r : string) : bool := Bytes.all Regexp.dot r.

Definition withGroup (g p tail : string) : string :=
  "domino-eks-" +:+ g +:+ "-" +:+ p +:+ "-" +:+ tail.

Definition withoutGroup (p tail : string) : string :=
  "domino-eks-" +:+ p +:+ "-" +:+ tail.

End Grammar.

(** ** The scenarios of the specification, as data *)

Module Examples.

Import nodeclasses.

Definition term (image : string) : AMISelectorTerm :=
  {| Name := image; Owner := "123456789012" |}.

(** A node class with one selector term. *)
Definition nodeClass (name image : string) : EC2NodeClass :=
  {| APIVersion := "karpenter.k8s.aws/v1"; Kind := "EC2NodeClass";
     Metadata_Name := name; Spec_AMISelectorTerms := [term image] |}.

(** Scenario B: a node class named after its group whose image names no
    group. *)
Definition gpu : EC2NodeClass := nodeClass "domino-eks-gpu" "domino-eks-1.33-*".

(** The same node class after an upgrade to the image with a group. *)
Definition gpuResolved : EC2NodeClass :=
  nodeClass "domino-eks-gpu" "domino-eks-gpu-1.33-v20251001".

(** A node class whose name does not start with [domino-eks-]. *)
Definition pool : EC2NodeClass := nodeClass "pool-a" "domino-eks-1.33-*".

Definition status (name : string) (drifted : bool) : NodeClaimStatus.t :=
  {| NodeClaimStatus.Name := name; NodeClaimStatus.NodeClass := "domino-eks-gpu";
     NodeClaimStatus.Age := 90000000000; NodeClaimStatus.Drifted := drifted;
     NodeClaimStatus.Reason := "" |}.

Definition image (name creationDate : string) : amis.AMIInfo :=
  {| amis.Name := name; amis.ImageID := "ami-0123456789abcdef0";
     amis.CreationDate := creationDate |}.

End Examples.

(** ** Notions used to state further properties of the code *)

Module Derived.

Import nodeclasses.

(** The image reference of a node class: the name of its first selector
    term, the only one the program reads. *)
Definition image (nc : EC2NodeClass) : option string :=
  Name <$> head (Spec_AMISelectorTerms nc).

(** The pattern that [ParseAMIName] returns for the image reference. *)
Definition parsed (nc : EC2NodeClass) : option AMIPattern :=
  match image nc with
  | Some amiName =>
      match ParseAMIName amiName with
      | inr pattern => Some pattern
      | inl _ => None
      end
  | None => None
  end.

(** The node class has an image reference, which does not parse. *)
Definition unparsed (nc : EC2NodeClass) : bool :=
  match image nc with
  | Some amiName =>
      match ParseAMIName amiName with
      | inr _ => false
      | inl _ => true
      end
  | None => false
  end.

(** A string of exactly [n] decimal digits. *)
Definition digits (n : nat) (s : string) : bool :=
  (String.length s =? n) && Bytes.all Bytes.is_digit s.

(** A byte below 128. *)
Definition is_ascii (a : ascii) : bool :=
  match a with Ascii _ _ _ _ _ _ _ b7 => negb b7 end.

(** The platform versions for which the two patterns of
    [ExtractVersions] are modelled: ASCII text, which [regexp.QuoteMeta]
    turns into a pattern that compiles and matches the text byte by byte,
    of at most 1000 bytes, far below the size at which
    [regexp.MustCompile] gives up.  The [1.N] of a parsed name is ASCII. *)
Definition plain (k8sVersion : string) : bool :=
  Bytes.all is_ascii k8sVersion && (String.length k8sVersion <=? 1000).

End Derived.

(** ** cmd: the start of [main], the list of versions and what follows the
    selection *)

Module program.

Import nodeclasses.

(** The loop of [main] that detects the platform version: the
    [K8sVersion] of the first node class with a selector term whose name
    parses; the empty string of [var k8sVersion string] when there is
    none. *)
Fixpoint detectK8sVersion (items : list EC2NodeClass) : string :=
  match items with
  | [] => ""
  | nc :: rest =>
      match Spec_AMISelectorTerms nc with
      | [] => detectK8sVersion rest
      | term :: _ =>
          match ParseAMIName (Name term) with
          | inl _ => detectK8sVersion rest
          | inr pattern => K8sVersion pattern
          end
      end
  end.

(** How [main] gets from the node classes to the call of
    [GetAvailableAMIs]. *)
Inductive started : Type :=
| ExitNoNodeClasses   (* No EC2NodeClass objects found in cluster; exit 1 *)
| ExitNoVersion       (* Could not determine k8s version; exit 1 *)
| StartPanics (cause : panic)
| Detected (k8sVersion ownerID : string).

(** [main] from the check of [nodeClasses.Items] to
    [nodeClasses.Items[0].Spec.AMISelectorTerms[0].Owner]. *)
Definition start (nodeClasses : NodeClassList) : started :=
  if decide (length (Items nodeClasses) = 0) then ExitNoNodeClasses else
  let k8sVersion := detectK8sVersion (Items nodeClasses) in
  if decide (k8sVersion = "") then ExitNoVersion else
  match Items nodeClasses with
  | [] => StartPanics IndexOutOfRange
  | nc :: _ =>
      match Spec_AMISelectorTerms nc with
      | [] => StartPanics IndexOutOfRange
      | term :: _ => Detected k8sVersion (Owner term)
      end
  end.

(** The entries of the list. *)
Record item : Type := {
  version : string;
  date : string;
  waitOnly : bool
}.

Definition FilterValue (i : item) : string :=
  if waitOnly i then "wait" else version i.

Definition Description (i : item) : string :=
  if waitOnly i then "Monitor nodeclaim drift status without making changes"
  else date i.

(** The conversion of the version items in [main]: the entry that only
    waits comes first. *)
Definition items (versionItems : list amis.VersionItem) : list item :=
  {| version := ""; date := ""; waitOnly := true |}
  :: ((λ vi, {| version := "v" +:+ amis.Version vi;
                date := "Created: " +:+ amis.Date vi;
                waitOnly := false |}) <$> versionItems).

(** The fields of [model] that [main] reads. *)
Record model : Type := {
  choice : string;
  quitting : bool
}.

(** The key presses that [Update] handles itself; [selected] is what
    [m.list.SelectedItem()] holds, an [item] or nothing. *)
Inductive keypress : Type :=
| CtrlC
| Enter (selected : option item).

(** [Update] on a key press: the new model; the command is [tea.Quit] in
    both cases. *)
Definition Update (m : model) (msg : keypress) : model :=
  match msg with
  | CtrlC => {| choice := choice m; quitting := true |}
  | Enter (Some i) => {| choice := FilterValue i; quitting := quitting m |}
  | Enter None => m
  end.

(** What [main] does with the final model. *)
Inductive selection : Type :=
| Cancelled                       (* Cancelled; exit 0 *)
| Monitor                         (* waitForNodeClaims *)
| NoVersionSelected               (* No version selected; exit 0 *)
| Plan (selectedVersion versionDate : string).

Definition afterSelection (finalModel : model) : selection :=
  if quitting finalModel then Cancelled else
  let selectedItem := choice finalModel in
  if decide (selectedItem = "wait") then Monitor else
  let selectedVersion := selectedItem in
  if decide (selectedVersion = "") then NoVersionSelected else
  Plan selectedVersion (Bytes.TrimPrefix selectedVersion "v").

End program.

(** ** cmd: applying the changes *)

Module applying.

Import nodeclasses main.

(** What the loop that applies the changes writes, on the standard output
    and, for a failure, on the standard error; [Updating] stands for the
    three lines that announce a change. *)
Inductive report : Type :=
| Updating (name old new : string)
| FailedToUpdate (name : string) (err : error)
| Updated (name : string)
| BlankLine
| AllUpdated.                    (* All nodeclasses updated successfully! *)

Section applyChanges.

(** The cluster that [kubectl] talks to, and [nodeclasses.UpdateNodeClass]
    as a function of it. *)
Variable cluster : Type.
Variable UpdateNodeClass : cluster → string → string → cluster * outcome.

(** The loop over [changes] in [main] and the line that follows it: the
    cluster it leaves, what it has written, and the panic that ended it,
    if any. *)
Fixpoint applyChanges (σ : cluster) (changes : list change)
    : cluster * list report * option panic :=
  match changes with
  | [] => (σ, [AllUpdated; BlankLine], None)
  | ch :: rest =>
      let started :=
        Updating (nodeclassName ch) (oldAMI ch) (newAMI ch) in
      match UpdateNodeClass σ (nodeclassName ch) (newAMI ch) with
      | (σ, Panics cause) => (σ, [started], Some cause)
      | (σ, Returns (Some err)) =>
          let '(σ, out, p) := applyChanges σ rest in
          (σ, started :: FailedToUpdate (nodeclassName ch) err :: out, p)
      | (σ, Returns None) =>
          let '(σ, out, p) := applyChanges σ rest in
          (σ, started :: Updated (nodeclassName ch) :: BlankLine :: out, p)
      end
  end.

End applyChanges.

(** The changes that the loop has started on, read off what it wrote. *)
Definition attempted (out : list report) : list change :=
  omap (λ r, match r with
             | Updating name old new =>
                 Some {| nodeclassName := name; oldAMI := old; newAMI := new |}
             | _ => None
             end) out.

(** The node classes reported as updated, and as failed. *)
Definition updated (out : list report) : list string :=
  omap (λ r, match r with Updated name => Some name | _ => None end) out.

Definition failed (out : list report) : list string :=
  omap (λ r, match r with FailedToUpdate name _ => Some name | _ => None end)
    out.

End applying.

(** * Facts about byte strings *)

#[local] Arguments String.append : simpl nomatch.

Section BytesFacts.

Implicit Types (s t u : string) (p : ascii → bool).

Lemma string_app_cons a s t : String a s +:+ t = String a (s +:+ t).
Proof. done. Qed.

Lemma string_app_nil_r s : s +:+ "" = s.
Proof. induction s as [|a s IH]; [done|]. by rewrite string_app_cons, IH. Qed.

Lemma string_length_app s t :
  String.length (s +:+ t) = String.length s + String.length t.
Proof. induction s as [|a s IH]; [done|]. cbn. by rewrite IH. Qed.

Lemma string_take_app s t : Bytes.take (String.length s) (s +:+ t) = s.
Proof.
  unfold Bytes.take. induction s as [|a s IH]; cbn.
  - by destruct t.
  - by rewrite IH.
Qed.

Lemma all_impl p q s :
  (∀ a, p a = true → q a = true) → Bytes.all p s = true → Bytes.all q s = true.
Proof.
  intros Hpq. induction s as [|a s IH]; [done|]. cbn.
  intros [Ha Hs]%andb_true_iff. rewrite (Hpq _ Ha). cbn. auto.
Qed.

Lemma digit_not_hyphen a : Regexp.digit a = true → Regexp.not_hyphen a = true.
Proof.
  unfold Regexp.not_hyphen. destruct (Ascii.eqb_spec a "-") as [->|]; done.
Qed.

(** A segment without [c] ends at the first [c]: the two ways of cutting
    a string at a [c] after such a segment are the same. *)
Lemma cut_unique c s s' t t' :
  Bytes.all (λ a, negb (Ascii.eqb a c)) s = true →
  Bytes.all (λ a, negb (Ascii.eqb a c)) s' = true →
  s +:+ String c t = s' +:+ String c t' → s = s' ∧ t = t'.
Proof.
  revert s'. induction s as [|a s IH]; intros [|a' s']; cbn.
  - intros _ _ [= ->]. done.
  - intros _ [Ha _]%andb_true_iff [= <- _].
    by rewrite Ascii.eqb_refl in Ha.
  - intros [Ha _]%andb_true_iff _ [= -> _].
    by rewrite Ascii.eqb_refl in Ha.
  - intros [_ Hs]%andb_true_iff [_ Hs']%andb_true_iff [= <- Heq].
    destruct (IH _ Hs Hs' Heq) as [-> ->]. done.
Qed.

End BytesFacts.

(** * Facts about the matcher *)

Section RegexpFacts.

Import Regexp.
Implicit Types (re : regexp) (o k : list string) (s t u : string).
Implicit Types (p : ascii → bool) (r : list string).

Lemma between_app u t : between (u +:+ t) t = u.
Proof.
  unfold between. rewrite string_length_app.
  replace (String.length u + String.length t - String.length t)
    with (String.length u) by lia.
  apply string_take_app.
Qed.

Lemma between_nil u : between u "" = u.
Proof. rewrite <-(string_app_nil_r u) at 1. apply between_app. Qed.

(** *** Running the matcher forwards *)

Lemma exec_Open re o k s : exec (Open :: re) o k s = exec re (s :: o) k s.
Proof. done. Qed.

Lemma exec_Close re from o k s :
  exec (Close :: re) (from :: o) k s = exec re o (between from s :: k) s.
Proof. done. Qed.

Lemma exec_Cls p re o k a s :
  p a = true → exec (Cls p :: re) o k (String a s) = exec re o k s.
Proof. intros Ha. cbn. by rewrite Ha. Qed.

Lemma exec_rep p n re o k u s :
  String.length u = n → Bytes.all p u = true →
  exec (rep n p ++ re) o k (u +:+ s) = exec re o k s.
Proof.
  revert u. induction n as [|n IH]; intros [|a u]; try done.
  cbn. intros [= Hn] [Ha Hu]%andb_true_iff. rewrite Ha. by apply IH.
Qed.

(** Where the rest of the pattern refuses the bytes of the class, the
    greedy star takes the whole run of them and never gives one back. *)
Lemma exec_Star p re o k u t :
  refuses p re o k → Bytes.all p u = true → stops p t = true →
  exec (Star p :: re) o k (u +:+ t) = exec re o k t.
Proof.
  intros Hre. induction u as [|a u IH]; intros Hu Ht.
  - destruct t as [|a t]; [done|]. cbn in *.
    by destruct (p a).
  - cbn in Hu. apply andb_true_iff in Hu as [Ha Hu].
    specialize (IH Hu Ht). cbn in *. rewrite Ha, IH.
    destruct (exec re o k t) eqn:E; [done|]. by apply Hre.
Qed.

Lemma refuses_nil p o k : refuses p [] o k.
Proof. done. Qed.

Lemma refuses_Close_Lit p c re o k :
  p c = false → refuses p (Close :: Lit c :: re) o k.
Proof.
  intros Hc a s Ha. destruct o as [|from o]; [done|]. cbn.
  destruct (Ascii.eqb_spec a c) as [->|]; [congruence|done].
Qed.

(** *** Running it backwards: what a successful match says of the input *)

Lemma exec_nil_inv o k s r :
  exec [] o k s = Some r → s = "" ∧ r = reverse k.
Proof. destruct s; cbn; [|done]. by intros [= <-]. Qed.

Lemma exec_Lit_inv c re o k s r :
  exec (Lit c :: re) o k s = Some r →
  ∃ s', s = String c s' ∧ exec re o k s' = Some r.
Proof.
  destruct s as [|a s]; cbn; [done|].
  destruct (Ascii.eqb_spec a c) as [->|]; [eauto|done].
Qed.

Lemma exec_lits_inv l re o k s r :
  exec (lits l ++ re) o k s = Some r →
  ∃ s', s = l +:+ s' ∧ exec re o k s' = Some r.
Proof.
  revert s. induction l as [|c l IH]; intros s; [by eauto|].
  intros (s1 & -> & (s2 & -> & H)%IH)%exec_Lit_inv. eauto.
Qed.

Lemma exec_Cls_inv p re o k s r :
  exec (Cls p :: re) o k s = Some r →
  ∃ a s', s = String a s' ∧ p a = true ∧ exec re o k s' = Some r.
Proof.
  destruct s as [|a s]; cbn; [done|].
  destruct (p a) eqn:Ha; [eauto|done].
Qed.

Lemma exec_rep_inv p n re o k s r :
  exec (rep n p ++ re) o k s = Some r →
  ∃ u s', s = u +:+ s' ∧ String.length u = n ∧ Bytes.all p u = true
          ∧ exec re o k s' = Some r.
Proof.
  revert s. induction n as [|n IH]; intros s.
  - intros H. by exists "", s.
  - intros (a & s1 & -> & Ha & (u & s2 & -> & <- & Hu & H)%IH)%exec_Cls_inv.
    exists (String a u), s2. cbn. by rewrite Ha, Hu.
Qed.

Lemma exec_Star_inv p re o k s r :
  exec (Star p :: re) o k s = Some r →
  ∃ u t, s = u +:+ t ∧ Bytes.all p u = true ∧ exec re o k t = Some r.
Proof.
  induction s as [|a s IH].
  - intros H. by exists "", "".
  - cbn. destruct (p a) eqn:Ha.
    + cbn in IH.
      match goal with
      | |- context [match ?st with Some _ => _ | None => _ end] =>
          destruct st eqn:E
      end.
      * intros [= <-]. destruct (IH eq_refl) as (u & t & -> & Hu & H).
        exists (String a u), t. cbn. by rewrite Ha, Hu.
      * intros H. by exists "", (String a s).
    + intros H. by exists "", (String a s).
Qed.

End RegexpFacts.

(** * The four patterns of [ParseAMIName] *)

#[local] Arguments Regexp.exec : simpl never.
#[local] Arguments Regexp.rep : simpl never.

Section ParseFacts.

Import Regexp nodeclasses Grammar.
Implicit Types (re : regexp) (o k : list string) (s t u g p d : string).
Implicit Types (r : list string).

Lemma exec_Lit c re o k s : exec (Lit c :: re) o k (String c s) = exec re o k s.
Proof. unfold exec; fold exec. by rewrite Ascii.eqb_refl. Qed.

Lemma is_group_spec g :
  is_group g = true ↔ nonempty g = true ∧ Bytes.all not_hyphen g = true.
Proof. unfold is_group. apply andb_true_iff. Qed.

Lemma is_platform_spec p :
  is_platform p = true ↔
  ∃ a n, p = String "1" (String "." (String a n))
         ∧ digit a = true ∧ Bytes.all digit n = true.
Proof.
  split.
  - destruct p as [|c1 [|c2 [|a n]]]; cbn; try done.
    + by rewrite andb_false_r.
    + rewrite !andb_true_iff.
      intros [[[->%Ascii.eqb_eq ->%Ascii.eqb_eq] _] [Ha Hn]].
      eauto.
  - intros (a & n & -> & Ha & Hn). cbn. by rewrite Ha, Hn.
Qed.

Lemma is_platform_group p : is_platform p = true → is_group p = true.
Proof.
  intros (a & n & -> & Ha & Hn)%is_platform_spec.
  apply is_group_spec. split; [done|]. cbn.
  rewrite (digit_not_hyphen _ Ha). cbn.
  eapply all_impl, Hn. apply digit_not_hyphen.
Qed.

Lemma is_date_spec d :
  is_date d = true ↔ String.length d = 8 ∧ Bytes.all digit d = true.
Proof.
  unfold is_date. rewrite andb_true_iff, bool_decide_eq_true. done.
Qed.

Lemma is_date_nonempty d : is_date d = true → d ≠ "".
Proof. by intros [? _]%is_date_spec ->. Qed.

(** *** Forwards: one group at a time *)

Lemma exec_group_plus q c re o k u t :
  q c = false → nonempty u = true → Bytes.all q u = true →
  exec (Open :: Cls q :: Star q :: Close :: Lit c :: re) o k (u +:+ String c t)
  = exec re o (u :: k) t.
Proof.
  intros Hc Hne Hu. destruct u as [|a u]; [done|]. cbn in Hu.
  apply andb_true_iff in Hu as [Ha Hu].
  rewrite exec_Open. cbn [String.append]. rewrite exec_Cls by done.
  rewrite exec_Star; [|by apply refuses_Close_Lit|done|by cbn; rewrite Hc].
  rewrite exec_Close, exec_Lit.
  by rewrite <-string_app_cons, between_app.
Qed.

Lemma exec_group_platform c re o k p t :
  digit c = false → is_platform p = true →
  exec (Open :: Lit "1" :: Lit "." :: Cls digit :: Star digit :: Close
          :: Lit c :: re) o k (p +:+ String c t)
  = exec re o (p :: k) t.
Proof.
  intros Hc (a & n & -> & Ha & Hn)%is_platform_spec.
  rewrite exec_Open. cbn [String.append]. rewrite !exec_Lit.
  rewrite exec_Cls by done.
  rewrite exec_Star; [|by apply refuses_Close_Lit|done|by cbn; rewrite Hc].
  rewrite exec_Close, exec_Lit.
  by rewrite <-!string_app_cons, between_app.
Qed.

Lemma exec_group_date d o k :
  is_date d = true → exec (group (rep 8 digit)) o k d = Some (reverse (d :: k)).
Proof.
  intros [Hlen Hd]%is_date_spec. unfold group. rewrite exec_Open.
  rewrite <-(string_app_nil_r d) at 2.
  rewrite exec_rep by done. rewrite exec_Close, between_nil. done.
Qed.

Lemma exec_rest t o k :
  is_rest t = true → exec [Star dot] o k t = Some (reverse k).
Proof.
  intros Ht. rewrite <-(string_app_nil_r t).
  rewrite exec_Star; [done|apply refuses_nil|done..].
Qed.

(** *** Backwards: one group at a time *)

Lemma exec_group_plus_inv q re o k s r :
  exec (Open :: Cls q :: Star q :: Close :: re) o k s = Some r →
  ∃ u t, s = u +:+ t ∧ nonempty u = true ∧ Bytes.all q u = true
         ∧ exec re o (u :: k) t = Some r.
Proof.
  rewrite exec_Open.
  intros (a & s1 & -> & Ha & (u & t & -> & Hu & H)%exec_Star_inv)%exec_Cls_inv.
  rewrite exec_Close, <-string_app_cons, between_app in H.
  exists (String a u), t. cbn. by rewrite Ha, Hu.
Qed.

Lemma exec_group_platform_inv re o k s r :
  exec (Open :: Lit "1" :: Lit "." :: Cls digit :: Star digit :: Close :: re)
    o k s = Some r →
  ∃ p t, s = p +:+ t ∧ is_platform p = true ∧ exec re o (p :: k) t = Some r.
Proof.
  rewrite exec_Open.
  intros (s1 & -> & (s2 & -> & (a & s3 & -> & Ha
    & (n & t & -> & Hn & H)%exec_Star_inv)%exec_Cls_inv)%exec_Lit_inv)%exec_Lit_inv.
  rewrite exec_Close, <-!string_app_cons, between_app in H.
  exists (String "1" (String "." (String a n))), t. split; [done|].
  split; [|done]. apply is_platform_spec. eauto.
Qed.

Lemma exec_group_date_inv o k s r :
  exec (group (rep 8 digit)) o k s = Some r →
  is_date s = true ∧ r = reverse (s :: k).
Proof.
  unfold group. rewrite exec_Open.
  intros (d & t & -> & Hlen & Hd & H)%exec_rep_inv.
  rewrite exec_Close in H. apply exec_nil_inv in H as [-> ->].
  rewrite string_app_nil_r, between_nil. split; [|done].
  by apply is_date_spec.
Qed.

Lemma exec_rest_inv o k s r :
  exec [Star dot] o k s = Some r → is_rest s = true ∧ r = reverse k.
Proof.
  intros (u & t & -> & Hu & [-> ->]%exec_nil_inv)%exec_Star_inv.
  by rewrite string_app_nil_r.
Qed.

End ParseFacts.

Section PatternFacts.

Import Regexp nodeclasses Grammar.
Implicit Types (s t u g p d : string) (r : list string).

(** *** The four patterns, forwards and backwards *)

Lemma reWithNodegroupVersion_fwd g p d :
  is_group g = true → is_platform p = true → is_date d = true →
  exec reWithNodegroupVersion [] [] (withGroup g p ("v" +:+ d))
  = Some [g; p; d].
Proof.
  intros [Hne Hg]%is_group_spec Hp Hd.
  unfold reWithNodegroupVersion, withGroup. cbn. rewrite !exec_Lit.
  rewrite exec_group_plus, exec_group_platform by done.
  rewrite exec_Lit. by rewrite exec_group_date.
Qed.

Lemma reWithNodegroupVersion_inv s r :
  exec reWithNodegroupVersion [] [] s = Some r →
  ∃ g p d, is_group g = true ∧ is_platform p = true ∧ is_date d = true
           ∧ s = withGroup g p ("v" +:+ d) ∧ r = [g; p; d].
Proof.
  unfold reWithNodegroupVersion.
  intros (s1 & -> & H)%exec_lits_inv. cbn in H.
  apply exec_group_plus_inv in H as (g & s2 & -> & Hne & Hg & H).
  apply exec_Lit_inv in H as (s3 & -> & H).
  apply exec_group_platform_inv in H as (p & s4 & -> & Hp & H).
  apply exec_Lit_inv in H as (s5 & -> & H).
  apply exec_Lit_inv in H as (d & -> & H).
  apply exec_group_date_inv in H as [Hd ->].
  exists g, p, d. repeat split; try done.
  by apply is_group_spec.
Qed.

Lemma reWithoutNodegroupVersion_fwd p d :
  is_platform p = true → is_date d = true →
  exec reWithoutNodegroupVersion [] [] (withoutGroup p ("v" +:+ d))
  = Some [p; d].
Proof.
  intros Hp Hd.
  unfold reWithoutNodegroupVersion, withoutGroup. cbn. rewrite !exec_Lit.
  rewrite exec_group_platform by done.
  rewrite exec_Lit. by rewrite exec_group_date.
Qed.

Lemma reWithoutNodegroupVersion_inv s r :
  exec reWithoutNodegroupVersion [] [] s = Some r →
  ∃ p d, is_platform p = true ∧ is_date d = true
         ∧ s = withoutGroup p ("v" +:+ d) ∧ r = [p; d].
Proof.
  unfold reWithoutNodegroupVersion.
  intros (s1 & -> & H)%exec_lits_inv. cbn in H.
  apply exec_group_platform_inv in H as (p & s4 & -> & Hp & H).
  apply exec_Lit_inv in H as (s5 & -> & H).
  apply exec_Lit_inv in H as (d & -> & H).
  apply exec_group_date_inv in H as [Hd ->].
  by exists p, d.
Qed.

Lemma reWithNodegroupWildcard_fwd g p t :
  is_group g = true → is_platform p = true → is_rest t = true →
  exec reWithNodegroupWildcard [] [] (withGroup g p t) = Some [g; p].
Proof.
  intros [Hne Hg]%is_group_spec Hp Ht.
  unfold reWithNodegroupWildcard, withGroup. cbn. rewrite !exec_Lit.
  rewrite exec_group_plus, exec_group_platform by done.
  by rewrite exec_rest.
Qed.

Lemma reWithNodegroupWildcard_inv s r :
  exec reWithNodegroupWildcard [] [] s = Some r →
  ∃ g p t, is_group g = true ∧ is_platform p = true ∧ is_rest t = true
           ∧ s = withGroup g p t ∧ r = [g; p].
Proof.
  unfold reWithNodegroupWildcard.
  intros (s1 & -> & H)%exec_lits_inv. cbn in H.
  apply exec_group_plus_inv in H as (g & s2 & -> & Hne & Hg & H).
  apply exec_Lit_inv in H as (s3 & -> & H).
  apply exec_group_platform_inv in H as (p & s4 & -> & Hp & H).
  apply exec_Lit_inv in H as (t & -> & H).
  apply exec_rest_inv in H as [Ht ->].
  exists g, p, t. repeat split; try done.
  by apply is_group_spec.
Qed.

Lemma reWithoutNodegroupWildcard_fwd p t :
  is_platform p = true → is_rest t = true →
  exec reWithoutNodegroupWildcard [] [] (withoutGroup p t) = Some [p].
Proof.
  intros Hp Ht.
  unfold reWithoutNodegroupWildcard, withoutGroup. cbn. rewrite !exec_Lit.
  rewrite exec_group_platform by done.
  by rewrite exec_rest.
Qed.

Lemma reWithoutNodegroupWildcard_inv s r :
  exec reWithoutNodegroupWildcard [] [] s = Some r →
  ∃ p t, is_platform p = true ∧ is_rest t = true
         ∧ s = withoutGroup p t ∧ r = [p].
Proof.
  unfold reWithoutNodegroupWildcard.
  intros (s1 & -> & H)%exec_lits_inv. cbn in H.
  apply exec_group_platform_inv in H as (p & s4 & -> & Hp & H).
  apply exec_Lit_inv in H as (t & -> & H).
  apply exec_rest_inv in H as [Ht ->].
  by exists p, t.
Qed.

(** *** How the forms overlap *)

Lemma is_group_no_hyphen g :
  is_group g = true → Bytes.all (λ a, negb (Ascii.eqb a "-")) g = true.
Proof. by intros [_ ?]%is_group_spec. Qed.

Lemma withGroup_inj g p t g' p' t' :
  is_group g = true → is_platform p = true →
  is_group g' = true → is_platform p' = true →
  withGroup g p t = withGroup g' p' t' → g = g' ∧ p = p' ∧ t = t'.
Proof.
  intros Hg Hp Hg' Hp' H. unfold withGroup in H.
  apply (inj (String.app _)) in H.
  apply cut_unique in H as [-> H]; [|by apply is_group_no_hyphen..].
  apply cut_unique in H as [-> ->];
    [done|by apply is_group_no_hyphen, is_platform_group..].
Qed.

Lemma withoutGroup_inj p t p' t' :
  is_platform p = true → is_platform p' = true →
  withoutGroup p t = withoutGroup p' t' → p = p' ∧ t = t'.
Proof.
  intros Hp Hp' H. unfold withoutGroup in H.
  apply (inj (String.app _)) in H.
  apply cut_unique in H as [-> ->];
    [done|by apply is_group_no_hyphen, is_platform_group..].
Qed.

(** A name without group, read as a name with a group: the platform
    version is taken for the group, and the tail starts with another
    platform version. *)
Lemma withoutGroup_withGroup p t g' p' t' :
  is_platform p = true → is_group g' = true →
  withoutGroup p t = withGroup g' p' t' → p = g' ∧ t = p' +:+ "-" +:+ t'.
Proof.
  intros Hp Hg' H. unfold withoutGroup, withGroup in H.
  apply (inj (String.app _)) in H.
  apply cut_unique in H as [-> ->]; [done| |by apply is_group_no_hyphen].
  by apply is_group_no_hyphen, is_platform_group.
Qed.

End PatternFacts.

(** * [ParseAMIName] on the forms of the grammar *)

Section ParseForms.

Import Regexp nodeclasses Grammar.
Implicit Types (s t u g p d : string) (r : list string).

(** What [ParseAMIName] returns is decided by the first of the four
    patterns that matches. *)
Lemma ParseAMIName_cases s :
  match exec reWithNodegroupVersion [] [] s with
  | Some r =>
      ParseAMIName s =
        (if decide (length (s :: r) = 4) then
           inr {| HasNodegroup := true; Nodegroup := at_ (s :: r) 1;
                  K8sVersion := at_ (s :: r) 2; Version := at_ (s :: r) 3 |}
         else ParseAMIName s)
  | None =>
  match exec reWithoutNodegroupVersion [] [] s with
  | Some r =>
      ParseAMIName s =
        (if decide (length (s :: r) = 3) then
           inr {| HasNodegroup := false; Nodegroup := "";
                  K8sVersion := at_ (s :: r) 1; Version := at_ (s :: r) 2 |}
         else ParseAMIName s)
  | None =>
  match exec reWithNodegroupWildcard [] [] s with
  | Some r =>
      ParseAMIName s =
        (if decide (length (s :: r) = 3) then
           inr {| HasNodegroup := true; Nodegroup := at_ (s :: r) 1;
                  K8sVersion := at_ (s :: r) 2; Version := "" |}
         else ParseAMIName s)
  | None =>
  match exec reWithoutNodegroupWildcard [] [] s with
  | Some r =>
      ParseAMIName s =
        (if decide (length (s :: r) = 2) then
           inr {| HasNodegroup := false; Nodegroup := "";
                  K8sVersion := at_ (s :: r) 1; Version := "" |}
         else ParseAMIName s)
  | None => ParseAMIName s = inl ("invalid AMI name format: " +:+ s)
  end end end end.
Proof.
  unfold ParseAMIName, FindStringSubmatch.
  repeat (case_match; try done).
Qed.

Lemma not_withGroup p t g' p' t' :
  is_platform p = true → (∀ u, t ≠ String "1" u) →
  is_group g' = true → is_platform p' = true →
  withoutGroup p t ≠ withGroup g' p' t'.
Proof.
  intros Hp Ht Hg' Hp' [_ ->]%withoutGroup_withGroup; [|done..].
  apply is_platform_spec in Hp' as (a & n & -> & _). by eapply Ht.
Qed.

Lemma ParseAMIName_withGroup_resolved g p d :
  is_group g = true → is_platform p = true → is_date d = true →
  ParseAMIName (withGroup g p ("v" +:+ d))
  = inr {| HasNodegroup := true; Nodegroup := g;
           K8sVersion := p; Version := d |}.
Proof.
  intros Hg Hp Hd. pose proof (ParseAMIName_cases (withGroup g p ("v" +:+ d))) as H.
  by rewrite reWithNodegroupVersion_fwd in H.
Qed.

Lemma ParseAMIName_withoutGroup_resolved p d :
  is_platform p = true → is_date d = true →
  ParseAMIName (withoutGroup p ("v" +:+ d))
  = inr {| HasNodegroup := false; Nodegroup := "";
           K8sVersion := p; Version := d |}.
Proof.
  intros Hp Hd.
  pose proof (ParseAMIName_cases (withoutGroup p ("v" +:+ d))) as H.
  destruct (exec reWithNodegroupVersion _ _ _) eqn:E1.
  { apply reWithNodegroupVersion_inv in E1 as (?&?&?&?&?&?&E1&_).
    by apply not_withGroup in E1. }
  by rewrite reWithoutNodegroupVersion_fwd in H.
Qed.

Lemma ParseAMIName_withGroup_pending g p t :
  is_group g = true → is_platform p = true → is_rest t = true →
  (∀ d, is_date d = true → t ≠ "v" +:+ d) →
  ParseAMIName (withGroup g p t)
  = inr {| HasNodegroup := true; Nodegroup := g;
           K8sVersion := p; Version := "" |}.
Proof.
  intros Hg Hp Ht Hpending.
  pose proof (ParseAMIName_cases (withGroup g p t)) as H.
  destruct (exec reWithNodegroupVersion _ _ _) eqn:E1.
  { apply reWithNodegroupVersion_inv in E1 as (?&?&?&?&?&?&E1&_).
    apply withGroup_inj in E1 as (_ & _ & E1); [|done..].
    by apply Hpending in E1. }
  destruct (exec reWithoutNodegroupVersion _ _ _) eqn:E2.
  { apply reWithoutNodegroupVersion_inv in E2 as (?&?&?&?&E2&_).
    symmetry in E2. apply withoutGroup_withGroup in E2 as [_ E2]; [|done..].
    apply is_platform_spec in Hp as (a & n & -> & _). done. }
  by rewrite reWithNodegroupWildcard_fwd in H.
Qed.

Lemma ParseAMIName_withoutGroup_pending p t :
  is_platform p = true → is_rest t = true →
  (∀ d, is_date d = true → t ≠ "v" +:+ d) → (∀ u, t ≠ String "1" u) →
  ParseAMIName (withoutGroup p t)
  = inr {| HasNodegroup := false; Nodegroup := "";
           K8sVersion := p; Version := "" |}.
Proof.
  intros Hp Ht Hpending Hhead.
  pose proof (ParseAMIName_cases (withoutGroup p t)) as H.
  destruct (exec reWithNodegroupVersion _ _ _) eqn:E1.
  { apply reWithNodegroupVersion_inv in E1 as (?&?&?&?&?&?&E1&_).
    by apply not_withGroup in E1. }
  destruct (exec reWithoutNodegroupVersion _ _ _) eqn:E2.
  { apply reWithoutNodegroupVersion_inv in E2 as (?&?&?&?&E2&_).
    apply withoutGroup_inj in E2 as [_ E2]; [|done..].
    by apply Hpending in E2. }
  destruct (exec reWithNodegroupWildcard _ _ _) eqn:E3.
  { apply reWithNodegroupWildcard_inv in E3 as (?&?&?&?&?&?&E3&_).
    by apply not_withGroup in E3. }
  by rewrite reWithoutNodegroupWildcard_fwd in H.
Qed.

(** Every name that parses has one of the four forms, and the pattern
    returned holds its segments. *)
Lemma ParseAMIName_inv s pattern :
  ParseAMIName s = inr pattern →
  (∃ g p d, is_group g = true ∧ is_platform p = true ∧ is_date d = true
     ∧ s = withGroup g p ("v" +:+ d)
     ∧ pattern = {| HasNodegroup := true; Nodegroup := g;
                    K8sVersion := p; Version := d |})
  ∨ (∃ p d, is_platform p = true ∧ is_date d = true
     ∧ s = withoutGroup p ("v" +:+ d)
     ∧ pattern = {| HasNodegroup := false; Nodegroup := "";
                    K8sVersion := p; Version := d |})
  ∨ (∃ g p t, is_group g = true ∧ is_platform p = true ∧ is_rest t = true
     ∧ s = withGroup g p t
     ∧ pattern = {| HasNodegroup := true; Nodegroup := g;
                    K8sVersion := p; Version := "" |})
  ∨ (∃ p t, is_platform p = true ∧ is_rest t = true
     ∧ s = withoutGroup p t
     ∧ pattern = {| HasNodegroup := false; Nodegroup := "";
                    K8sVersion := p; Version := "" |}).
Proof.
  intros Hparse. pose proof (ParseAMIName_cases s) as H.
  destruct (exec reWithNodegroupVersion _ _ _) eqn:E1.
  { apply reWithNodegroupVersion_inv in E1 as (g&p&d&?&?&?&Hs&->).
    cbn in H. rewrite H in Hparse. injection Hparse as <-.
    left. by exists g, p, d. }
  destruct (exec reWithoutNodegroupVersion _ _ _) eqn:E2.
  { apply reWithoutNodegroupVersion_inv in E2 as (p&d&?&?&Hs&->).
    cbn in H. rewrite H in Hparse. injection Hparse as <-.
    right; left. by exists p, d. }
  destruct (exec reWithNodegroupWildcard _ _ _) eqn:E3.
  { apply reWithNodegroupWildcard_inv in E3 as (g&p&t&?&?&?&Hs&->).
    cbn in H. rewrite H in Hparse. injection Hparse as <-.
    right; right; left. by exists g, p, t. }
  destruct (exec reWithoutNodegroupWildcard _ _ _) eqn:E4.
  { apply reWithoutNodegroupWildcard_inv in E4 as (p&t&?&?&Hs&->).
    cbn in H. rewrite H in Hparse. injection Hparse as <-.
    right; right; right. by exists p, t. }
  congruence.
Qed.

End ParseForms.

(** * The registry and the plan *)

Section RegistryFacts.

Import nodeclasses.
Implicit Types (m : gmap string NodeClassInfo.t) (nc : EC2NodeClass).
Implicit Types (l : list EC2NodeClass).

(** A node class touches no entry but its own. *)
Lemma register_lookup_ne m nc n :
  Metadata_Name nc ≠ n → register m nc !! n = m !! n.
Proof.
  intros Hne. unfold register.
  repeat case_match; try done; by rewrite lookup_insert_ne.
Qed.

(** Its own entry does not depend on what the map held before, unless
    the node class is passed over. *)
Lemma register_lookup_eq m nc :
  register m nc !! Metadata_Name nc =
    match register ∅ nc !! Metadata_Name nc with
    | Some info => Some info
    | None => m !! Metadata_Name nc
    end.
Proof.
  unfold register.
  repeat case_match; simplify_map_eq; try done.
Qed.

Lemma foldl_register_notin m l n :
  n ∉ Metadata_Name <$> l → foldl register m l !! n = m !! n.
Proof.
  revert m. induction l as [|x l IH]; intros m Hn; [done|].
  rewrite fmap_cons, not_elem_of_cons in Hn. destruct Hn as [Hx Hl].
  cbn. rewrite IH by done. by apply register_lookup_ne.
Qed.

Lemma foldl_register_lookup m l nc :
  NoDup (Metadata_Name <$> l) → nc ∈ l →
  foldl register m l !! Metadata_Name nc =
    match register ∅ nc !! Metadata_Name nc with
    | Some info => Some info
    | None => m !! Metadata_Name nc
    end.
Proof.
  revert m. induction l as [|x l IH]; intros m Hnd Hin.
  { by apply elem_of_nil in Hin. }
  rewrite fmap_cons, NoDup_cons in Hnd. destruct Hnd as [Hx Hnd].
  cbn. apply elem_of_cons in Hin as [->|Hin].
  - rewrite foldl_register_notin by done. apply register_lookup_eq.
  - rewrite IH by done. case_match; [done|].
    apply register_lookup_ne. intros Heq. apply Hx. rewrite Heq.
    by apply list_elem_of_fmap_2.
Qed.

(** With names that are unique, the registry holds for each node class
    what the loop body stores for it alone. *)
Lemma BuildNodeClassMap_lookup nodeClasses nc :
  NoDup (Metadata_Name <$> Items nodeClasses) → nc ∈ Items nodeClasses →
  BuildNodeClassMap nodeClasses !! Metadata_Name nc
  = register ∅ nc !! Metadata_Name nc.
Proof.
  intros Hnd Hin. unfold BuildNodeClassMap.
  rewrite foldl_register_lookup by done. by case_match.
Qed.

(** The entry of a node class whose first selector term parses. *)
Lemma register_parsed nc term rest pattern :
  Spec_AMISelectorTerms nc = term :: rest →
  ParseAMIName (Name term) = inr pattern →
  ∃ ng, register ∅ nc !! Metadata_Name nc
        = Some {| NodeClassInfo.HasNodegroup := HasNodegroup pattern;
                  NodeClassInfo.Nodegroup := ng |}
        ∧ (HasNodegroup pattern = true → ng = Nodegroup pattern).
Proof.
  intros Hterms Hparse. unfold register. rewrite Hterms, Hparse.
  eexists. rewrite lookup_insert_eq. split; [done|].
  by intros ->.
Qed.

End RegistryFacts.

Section PlanFacts.

Import nodeclasses main.
Implicit Types (m : gmap string NodeClassInfo.t) (nc : EC2NodeClass).
Implicit Types (l : list EC2NodeClass) (acc : list change * list line).

(** The loop only ever appends to the changes. *)
Lemma collect_changes m d acc nc :
  (collect m d acc nc).1 = acc.1 ++ (collect m d ([], []) nc).1.
Proof.
  destruct acc as [changes out]. unfold collect.
  repeat case_match; cbn; by rewrite ?app_nil_r.
Qed.

Lemma foldl_collect_changes m d acc l :
  (foldl (collect m d) acc l).1
  = acc.1 ++ mjoin ((λ nc, (collect m d ([], []) nc).1) <$> l).
Proof.
  revert acc. induction l as [|x l IH]; intros acc; cbn.
  - by rewrite app_nil_r.
  - rewrite IH, collect_changes. by rewrite <-app_assoc.
Qed.

Lemma collectChanges_changes nodeClasses m d c :
  c ∈ (collectChanges nodeClasses m d).1 ↔
  ∃ nc, nc ∈ Items nodeClasses ∧ c ∈ (collect m d ([], []) nc).1.
Proof.
  unfold collectChanges. rewrite foldl_collect_changes. cbn.
  rewrite list_elem_of_join. split.
  - intros (cs & Hc & (nc & -> & Hnc)%list_elem_of_fmap). eauto.
  - intros (nc & Hnc & Hc). eexists. split; [done|].
    apply list_elem_of_fmap. eauto.
Qed.

(** The one change planned for a node class whose first selector term
    parses and that the registry knows. *)
Lemma collect_parsed m d nc term rest pattern info :
  Spec_AMISelectorTerms nc = term :: rest →
  ParseAMIName (Name term) = inr pattern →
  m !! Metadata_Name nc = Some info →
  (collect m d ([], []) nc).1
  = [{| nodeclassName := Metadata_Name nc; oldAMI := Name term;
        newAMI := constructNewAMI info pattern d |}].
Proof.
  intros Hterms Hparse Hinfo. unfold collect.
  by rewrite Hterms, Hparse, Hinfo.
Qed.

Lemma collect_name m d nc c :
  c ∈ (collect m d ([], []) nc).1 → nodeclassName c = Metadata_Name nc.
Proof.
  unfold collect. repeat case_match; cbn;
    rewrite ?elem_of_nil, ?list_elem_of_singleton; try done.
  by intros ->.
Qed.

Lemma TrimPrefix_v d : Bytes.TrimPrefix ("v" +:+ d) "v" = d.
Proof. reflexivity. Qed.

End PlanFacts.

(** * The dry run, node class by node class *)

Section DryRunFacts.

Import nodeclasses main Grammar.

Lemma NoDup_fmap_eq {A B} (f : A → B) (l : list A) x y :
  NoDup (f <$> l) → x ∈ l → y ∈ l → f x = f y → x = y.
Proof.
  induction l as [|a l IH]; [by intros _ ?%elem_of_nil|].
  rewrite fmap_cons, NoDup_cons. intros [Ha Hnd].
  intros [->|Hx]%elem_of_cons [->|Hy]%elem_of_cons Heq; auto.
  - destruct Ha. rewrite Heq. by apply list_elem_of_fmap_2.
  - destruct Ha. rewrite <-Heq. by apply list_elem_of_fmap_2.
Qed.

(** With unique names, the changes planned under the name of a node
    class whose image parses are the one change built from its own
    registry entry. *)
Lemma dryRun_change nodeClasses nc term rest pattern info d c :
  NoDup (Metadata_Name <$> Items nodeClasses) → nc ∈ Items nodeClasses →
  Spec_AMISelectorTerms nc = term :: rest →
  ParseAMIName (Name term) = inr pattern →
  register ∅ nc !! Metadata_Name nc = Some info →
  (c ∈ (dryRun nodeClasses ("v" +:+ d)).1
     ∧ nodeclassName c = Metadata_Name nc)
  ↔ c = {| nodeclassName := Metadata_Name nc; oldAMI := Name term;
           newAMI := constructNewAMI info pattern d |}.
Proof.
  intros Hnd Hin Hterms Hparse Hinfo. unfold dryRun.
  rewrite TrimPrefix_v, collectChanges_changes.
  assert ((collect (BuildNodeClassMap nodeClasses) d ([], []) nc).1
          = [{| nodeclassName := Metadata_Name nc; oldAMI := Name term;
                newAMI := constructNewAMI info pattern d |}]) as Hnc.
  { eapply collect_parsed; [done..|].
    by rewrite BuildNodeClassMap_lookup. }
  split.
  - intros [(nc' & Hin' & Hc) Hname].
    assert (nc' = nc) as ->.
    { eapply NoDup_fmap_eq; [done..|].
      by rewrite <-(collect_name _ _ _ _ Hc). }
    rewrite Hnc in Hc. by apply list_elem_of_singleton in Hc.
  - intros ->. split; [|done]. exists nc. split; [done|].
    rewrite Hnc. by apply list_elem_of_singleton.
Qed.

(** The new name built for a resolved name with its own date version
    is the name itself. *)
Lemma constructNewAMI_resolved s pattern info :
  ParseAMIName s = inr pattern → Version pattern ≠ "" →
  NodeClassInfo.HasNodegroup info = HasNodegroup pattern →
  (HasNodegroup pattern = true →
   NodeClassInfo.Nodegroup info = Nodegroup pattern) →
  constructNewAMI info pattern (Version pattern) = s.
Proof.
  intros Hparse Hver Hhas Hng. unfold constructNewAMI. rewrite Hhas.
  apply ParseAMIName_inv in Hparse
    as [(g&p&d&_&_&_&->&->)|[(p&d&_&_&->&->)|[(g&p&t&_&_&_&_&->)
       |(p&t&_&_&_&->)]]]; cbn in *; try done.
  by rewrite Hng.
Qed.

(** The new name built from a parsed pattern parses again, to the same
    pattern with the chosen date version. *)
Lemma constructNewAMI_parses s pattern info d :
  ParseAMIName s = inr pattern → is_date d = true →
  NodeClassInfo.HasNodegroup info = HasNodegroup pattern →
  (HasNodegroup pattern = true →
   NodeClassInfo.Nodegroup info = Nodegroup pattern) →
  ParseAMIName (constructNewAMI info pattern d)
  = inr {| HasNodegroup := HasNodegroup pattern;
           Nodegroup := Nodegroup pattern;
           K8sVersion := K8sVersion pattern; Version := d |}.
Proof.
  intros Hparse Hd Hhas Hng. unfold constructNewAMI. rewrite Hhas.
  apply ParseAMIName_inv in Hparse
    as [(g&p&d'&?&?&_&_&->)|[(p&d'&?&_&_&->)|[(g&p&t&?&?&_&_&->)
       |(p&t&?&_&_&->)]]]; cbn in *.
  - rewrite Hng by done. by apply ParseAMIName_withGroup_resolved.
  - by apply ParseAMIName_withoutGroup_resolved.
  - rewrite Hng by done. by apply ParseAMIName_withGroup_resolved.
  - by apply ParseAMIName_withoutGroup_resolved.
Qed.

End DryRunFacts.

(** * Claims about the parser, the registry and the planner *)

Section PlannerClaims.

Import nodeclasses main Grammar.

(** C3. For every name of a resolved form, [domino-eks-<g>-<p>-v<d>] or
    [domino-eks-<p>-v<d>], with [g] a group segment (not empty, no
    hyphen), [p] of the form [1.N] and [d] of eight digits,
    [ParseAMIName] succeeds and returns exactly the segments, with a
    date version that is not empty; for the wildcard names
    [domino-eks-<g>-<p>-*] and [domino-eks-<p>-*] it returns the
    segments with the empty date version. *)
Theorem C3_parse_recovers_segments (g p d : string) :
  is_group g = true → is_platform p = true → is_date d = true →
  ParseAMIName ("domino-eks-" +:+ g +:+ "-" +:+ p +:+ "-v" +:+ d)
    = inr {| HasNodegroup := true; Nodegroup := g;
             K8sVersion := p; Version := d |}
  ∧ ParseAMIName ("domino-eks-" +:+ p +:+ "-v" +:+ d)
    = inr {| HasNodegroup := false; Nodegroup := "";
             K8sVersion := p; Version := d |}
  ∧ d ≠ ""
  ∧ ParseAMIName ("domino-eks-" +:+ g +:+ "-" +:+ p +:+ "-*")
    = inr {| HasNodegroup := true; Nodegroup := g;
             K8sVersion := p; Version := "" |}
  ∧ ParseAMIName ("domino-eks-" +:+ p +:+ "-*")
    = inr {| HasNodegroup := false; Nodegroup := "";
             K8sVersion := p; Version := "" |}.
Proof.
  intros Hg Hp Hd. split_and!.
  - by apply ParseAMIName_withGroup_resolved.
  - by apply ParseAMIName_withoutGroup_resolved.
  - by apply is_date_nonempty.
  - by apply (ParseAMIName_withGroup_pending g p "*").
  - by apply (ParseAMIName_withoutGroup_pending p "*").
Qed.

Lemma C3_witness :
  ParseAMIName "domino-eks-gpu-1.33-v20251001"
    = inr {| HasNodegroup := true; Nodegroup := "gpu";
             K8sVersion := "1.33"; Version := "20251001" |}
  ∧ ParseAMIName "domino-eks-1.33-v20251001"
    = inr {| HasNodegroup := false; Nodegroup := "";
             K8sVersion := "1.33"; Version := "20251001" |}
  ∧ "20251001" ≠ ""
  ∧ ParseAMIName "domino-eks-gpu-1.33-*"
    = inr {| HasNodegroup := true; Nodegroup := "gpu";
             K8sVersion := "1.33"; Version := "" |}
  ∧ ParseAMIName "domino-eks-1.33-*"
    = inr {| HasNodegroup := false; Nodegroup := "";
             K8sVersion := "1.33"; Version := "" |}.
Proof.
  apply (C3_parse_recovers_segments "gpu" "1.33" "20251001"); reflexivity.
Defined.

(** C1, as the program has it.  For a node class named [domino-eks-gpu]
    whose image reference is [domino-eks-1.33-*], the registry stores
    the group [gpu] inferred from the name, yet marks the entry as
    having no group, and the new reference planned for the chosen date
    version [d] is [domino-eks-1.33-v<d>]: the inferred group is not
    attached to it. *)
Theorem C1_inferred_group_not_attached
    (nodeClasses : NodeClassList) (nc : EC2NodeClass)
    (term : AMISelectorTerm) (rest : list AMISelectorTerm) (d : string) :
  NoDup (Metadata_Name <$> Items nodeClasses) → nc ∈ Items nodeClasses →
  Metadata_Name nc = "domino-eks-gpu" →
  Spec_AMISelectorTerms nc = term :: rest →
  Name term = "domino-eks-1.33-*" →
  BuildNodeClassMap nodeClasses !! "domino-eks-gpu"
    = Some {| NodeClassInfo.HasNodegroup := false;
              NodeClassInfo.Nodegroup := "gpu" |}
  ∧ ∀ c, (c ∈ (dryRun nodeClasses ("v" +:+ d)).1
            ∧ nodeclassName c = "domino-eks-gpu")
         ↔ c = {| nodeclassName := "domino-eks-gpu";
                  oldAMI := "domino-eks-1.33-*";
                  newAMI := "domino-eks-1.33-v" +:+ d |}.
Proof.
  intros Hnd Hin Hname Hterms Himage.
  assert (ParseAMIName (Name term)
          = inr {| HasNodegroup := false; Nodegroup := "";
                   K8sVersion := "1.33"; Version := "" |}) as Hparse.
  { by rewrite Himage. }
  assert (register ∅ nc !! Metadata_Name nc
          = Some {| NodeClassInfo.HasNodegroup := false;
                    NodeClassInfo.Nodegroup := "gpu" |}) as Hinfo.
  { unfold register. rewrite Hterms, Hparse, Hname. done. }
  split.
  - rewrite <-Hname, BuildNodeClassMap_lookup by done. done.
  - intros c. rewrite <-Hname, <-Himage.
    by rewrite (dryRun_change _ _ _ _ _ _ d c Hnd Hin Hterms Hparse Hinfo).
Qed.

Lemma C1_witness :
  BuildNodeClassMap {| Items := [Examples.gpu] |} !! "domino-eks-gpu"
    = Some {| NodeClassInfo.HasNodegroup := false;
              NodeClassInfo.Nodegroup := "gpu" |}
  ∧ ∀ c, (c ∈ (dryRun {| Items := [Examples.gpu] |} "v20251001").1
            ∧ nodeclassName c = "domino-eks-gpu")
         ↔ c = {| nodeclassName := "domino-eks-gpu";
                  oldAMI := "domino-eks-1.33-*";
                  newAMI := "domino-eks-1.33-v20251001" |}.
Proof.
  apply (C1_inferred_group_not_attached {| Items := [Examples.gpu] |}
           Examples.gpu (Examples.term "domino-eks-1.33-*") [] "20251001");
    try reflexivity.
  - apply NoDup_singleton.
  - apply list_elem_of_singleton. reflexivity.
Defined.

(** C1 fails as stated: for the node class of scenario B and the date
    version [20251001] the plan holds the reference without group, and
    no change with the reference [domino-eks-gpu-1.33-v20251001]. *)
Lemma C1_counterexample :
  (dryRun {| Items := [Examples.gpu] |} "v20251001").1
    = [{| nodeclassName := "domino-eks-gpu";
          oldAMI := "domino-eks-1.33-*";
          newAMI := "domino-eks-1.33-v20251001" |}]
  ∧ ¬ ∃ c, c ∈ (dryRun {| Items := [Examples.gpu] |} "v20251001").1
           ∧ newAMI c = "domino-eks-gpu-1.33-v20251001".
Proof.
  assert ((dryRun {| Items := [Examples.gpu] |} "v20251001").1
          = [{| nodeclassName := "domino-eks-gpu";
                oldAMI := "domino-eks-1.33-*";
                newAMI := "domino-eks-1.33-v20251001" |}]) as E.
  { by vm_compute. }
  split; [done|]. rewrite E.
  by intros (c & ->%list_elem_of_singleton & Hc).
Qed.

(** C5. Re-entrancy: for a node class, named uniquely, whose image
    reference is a resolved name that parses, the plan for the date
    version of that name holds, under the name of the node class, one
    change, and its new reference is its old reference. *)
Theorem C5_reentrant
    (nodeClasses : NodeClassList) (nc : EC2NodeClass)
    (term : AMISelectorTerm) (rest : list AMISelectorTerm)
    (pattern : AMIPattern) :
  NoDup (Metadata_Name <$> Items nodeClasses) → nc ∈ Items nodeClasses →
  Spec_AMISelectorTerms nc = term :: rest →
  ParseAMIName (Name term) = inr pattern → Version pattern ≠ "" →
  ∀ c, (c ∈ (dryRun nodeClasses ("v" +:+ Version pattern)).1
          ∧ nodeclassName c = Metadata_Name nc)
       ↔ c = {| nodeclassName := Metadata_Name nc;
                oldAMI := Name term; newAMI := Name term |}.
Proof.
  intros Hnd Hin Hterms Hparse Hver c.
  destruct (register_parsed nc term rest pattern Hterms Hparse)
    as (ng & Hinfo & Hng).
  rewrite (dryRun_change _ _ _ _ _ _ _ c Hnd Hin Hterms Hparse Hinfo).
  by rewrite (constructNewAMI_resolved (Name term)).
Qed.

Lemma C5_witness :
  {| nodeclassName := "domino-eks-gpu";
     oldAMI := "domino-eks-gpu-1.33-v20251001";
     newAMI := "domino-eks-gpu-1.33-v20251001" |}
    ∈ (dryRun {| Items := [Examples.gpuResolved] |} "v20251001").1
  ∧ nodeclassName
      {| nodeclassName := "domino-eks-gpu";
         oldAMI := "domino-eks-gpu-1.33-v20251001";
         newAMI := "domino-eks-gpu-1.33-v20251001" |}
    = "domino-eks-gpu".
Proof.
  apply (C5_reentrant {| Items := [Examples.gpuResolved] |}
           Examples.gpuResolved
           (Examples.term "domino-eks-gpu-1.33-v20251001") []
           {| HasNodegroup := true; Nodegroup := "gpu";
              K8sVersion := "1.33"; Version := "20251001" |});
    try reflexivity.
  - apply NoDup_singleton.
  - apply list_elem_of_singleton. reflexivity.
  - discriminate.
Defined.

(** C6. Idempotence: for a pattern parsed from the image reference of
    a node class, the registry entry of that node class and a date
    version [d] of eight digits, the new name parses, and the name
    built again from what it parses to is the same name. *)
Theorem C6_synthesis_idempotent
    (nodeClasses : NodeClassList) (nc : EC2NodeClass)
    (term : AMISelectorTerm) (rest : list AMISelectorTerm)
    (pattern : AMIPattern) (info : NodeClassInfo.t) (d : string) :
  NoDup (Metadata_Name <$> Items nodeClasses) → nc ∈ Items nodeClasses →
  Spec_AMISelectorTerms nc = term :: rest →
  ParseAMIName (Name term) = inr pattern →
  BuildNodeClassMap nodeClasses !! Metadata_Name nc = Some info →
  is_date d = true →
  ∃ pattern',
    ParseAMIName (constructNewAMI info pattern d) = inr pattern'
    ∧ constructNewAMI info pattern' d = constructNewAMI info pattern d.
Proof.
  intros Hnd Hin Hterms Hparse Hinfo Hd.
  rewrite BuildNodeClassMap_lookup in Hinfo by done.
  destruct (register_parsed nc term rest pattern Hterms Hparse)
    as (ng & Hinfo' & Hng).
  rewrite Hinfo' in Hinfo. injection Hinfo as <-.
  eexists. split; [by eapply constructNewAMI_parses|done].
Qed.

Lemma C6_witness :
  ∃ pattern',
    ParseAMIName "domino-eks-1.33-v20251001" = inr pattern'
    ∧ constructNewAMI
        {| NodeClassInfo.HasNodegroup := false;
           NodeClassInfo.Nodegroup := "gpu" |} pattern' "20251001"
      = "domino-eks-1.33-v20251001".
Proof.
  apply (C6_synthesis_idempotent {| Items := [Examples.gpu] |}
           Examples.gpu (Examples.term "domino-eks-1.33-*") []
           {| HasNodegroup := false; Nodegroup := "";
              K8sVersion := "1.33"; Version := "" |}
           {| NodeClassInfo.HasNodegroup := false;
              NodeClassInfo.Nodegroup := "gpu" |} "20251001");
    try reflexivity.
  - apply NoDup_singleton.
  - apply list_elem_of_singleton. reflexivity.
Defined.

(** C8. For a node class, named uniquely, whose image reference parses
    without a group and whose name does not split at its hyphens into
    three segments or more of which the first is [domino] and the second
    [eks], the registry gets an entry with the empty group.  The
    function returns the map and nothing else: there is no error and no
    output by which the name could be reported. *)
Theorem C8_silent_empty_group
    (nodeClasses : NodeClassList) (nc : EC2NodeClass)
    (term : AMISelectorTerm) (rest : list AMISelectorTerm)
    (pattern : AMIPattern) :
  NoDup (Metadata_Name <$> Items nodeClasses) → nc ∈ Items nodeClasses →
  Spec_AMISelectorTerms nc = term :: rest →
  ParseAMIName (Name term) = inr pattern → HasNodegroup pattern = false →
  ¬ (3 ≤ length (Bytes.Split "-" (Metadata_Name nc))
     ∧ Bytes.Split "-" (Metadata_Name nc) !! 0 = Some "domino"
     ∧ Bytes.Split "-" (Metadata_Name nc) !! 1 = Some "eks") →
  BuildNodeClassMap nodeClasses !! Metadata_Name nc
  = Some {| NodeClassInfo.HasNodegroup := false;
            NodeClassInfo.Nodegroup := "" |}.
Proof.
  intros Hnd Hin Hterms Hparse Hhas Hname.
  rewrite BuildNodeClassMap_lookup by done.
  assert (Nodegroup pattern = "") as Hng.
  { apply ParseAMIName_inv in Hparse
      as [(?&?&?&_&_&_&_&->)|[(?&?&_&_&_&->)|[(?&?&?&_&_&_&_&->)
         |(?&?&_&_&_&->)]]]; done. }
  unfold register. rewrite Hterms, Hparse, Hhas, Hng. cbn [negb].
  destruct (bool_decide _ && bool_decide _ && bool_decide _) eqn:E.
  - destruct Hname.
    apply andb_true_iff in E as [[H3 H0]%andb_true_iff H1].
    apply bool_decide_eq_true in H3, H0, H1. unfold at_ in *.
    destruct (Bytes.Split "-" (Metadata_Name nc)) as [|a [|b l]];
      cbn in *; [lia..|]. by subst.
  - by rewrite lookup_insert_eq.
Qed.

Lemma C8_witness :
  BuildNodeClassMap {| Items := [Examples.pool] |} !! "pool-a"
  = Some {| NodeClassInfo.HasNodegroup := false;
            NodeClassInfo.Nodegroup := "" |}.
Proof.
  apply (C8_silent_empty_group {| Items := [Examples.pool] |}
           Examples.pool (Examples.term "domino-eks-1.33-*") []
           {| HasNodegroup := false; Nodegroup := "";
              K8sVersion := "1.33"; Version := "" |});
    try reflexivity.
  - apply NoDup_singleton.
  - apply list_elem_of_singleton. reflexivity.
  - vm_compute. intros (_ & H & _). discriminate H.
Defined.

End PlannerClaims.

(** * Claims about the monitor's predicate and about [UpdateNodeClass] *)

Section MonitorClaims.

Import nodeclasses main.

Lemma foldl_showStatus_undrifted statuses out n :
  Forall (λ status, NodeClaimStatus.Drifted status = false) statuses →
  (foldl showStatus (out, n) statuses).2 = n.
Proof.
  intros H. revert out. induction H as [|status statuses Hs _ IH];
    intros out; [done|].
  cbn. rewrite Hs. apply IH.
Qed.

(** C2, as the program has it.  The function handed to the monitor
    returns [true], continue, on every tick; on a tick at which node
    claims were fetched and none of them is drifted, it prints that all
    of them are undrifted and still returns [true]: it never asks the
    poll loop to stop. *)
Theorem C2_predicate_always_continues (statuses : list NodeClaimStatus.t) :
  (onStatuses statuses).2 = true
  ∧ (statuses ≠ [] →
     Forall (λ status, NodeClaimStatus.Drifted status = false) statuses →
     AllUndrifted ∈ (onStatuses statuses).1).
Proof.
  unfold onStatuses. split.
  - case_decide; [done|]. by destruct (foldl showStatus _ _).
  - intros Hne Hall. case_decide as Hlen.
    { by destruct statuses. }
    pose proof (foldl_showStatus_undrifted statuses
                  [ClearScreen; Title; Rule] 0 Hall) as Hcount.
    destruct (foldl showStatus _ _) as [out n]. cbn in Hcount. subst n.
    cbn. set_solver.
Qed.

Lemma C2_witness :
  (onStatuses [Examples.status "node-1" false]).2 = true
  ∧ AllUndrifted ∈ (onStatuses [Examples.status "node-1" false]).1.
Proof.
  destruct (C2_predicate_always_continues [Examples.status "node-1" false])
    as [Hcontinue Hprinted].
  split; [exact Hcontinue|]. apply Hprinted.
  - discriminate.
  - repeat constructor.
Defined.

(** C2 fails as stated: on a tick at which the two node claims fetched
    are both undrifted, the predicate does not return [false]. *)
Lemma C2_counterexample :
  Forall (λ status, NodeClaimStatus.Drifted status = false)
    [Examples.status "node-1" false; Examples.status "node-2" false]
  ∧ (onStatuses [Examples.status "node-1" false;
                 Examples.status "node-2" false]).2 ≠ false.
Proof. split; [by repeat constructor|done]. Qed.

(** C9. For a fetched node class object that has no [spec], or whose
    [spec] has no [amiSelectorTerms], or an empty list of them,
    [UpdateNodeClass] panics, on a type assertion in the first two cases
    and on the index 0 in the third: it does not return, with or without
    an error. *)
Theorem C9_update_panics
    (kubectl_get : string → error + string)
    (Unmarshal : string → error + json.value)
    (Marshal : json.value → error + string)
    (kubectl_apply : string → option error)
    (name newAMI output : string) (nodeclass : gmap string json.value) :
  kubectl_get name = inr output →
  Unmarshal output = inr (json.Object nodeclass) →
  let result :=
    UpdateNodeClass kubectl_get Unmarshal Marshal kubectl_apply name newAMI in
  (nodeclass !! "spec" = None → result = Panics InterfaceConversion)
  ∧ (∀ spec, nodeclass !! "spec" = Some (json.Object spec) →
       (spec !! "amiSelectorTerms" = None →
        result = Panics InterfaceConversion)
       ∧ (spec !! "amiSelectorTerms" = Some (json.Array []) →
          result = Panics IndexOutOfRange)).
Proof.
  intros Hget Hdecode result. subst result.
  unfold UpdateNodeClass, unmarshal_map. rewrite Hget, Hdecode.
  split; [by intros ->|]. intros spec ->. cbn.
  split; by intros ->.
Qed.

Lemma C9_witness :
  UpdateNodeClass
    (λ _, inr "{}") (λ _, inr (json.Object ∅)) (λ _, inr "{}") (λ _, None)
    "domino-eks-gpu" "domino-eks-gpu-1.33-v20251001"
  = Panics InterfaceConversion
  ∧ ∀ err,
      UpdateNodeClass
        (λ _, inr "{}") (λ _, inr (json.Object ∅)) (λ _, inr "{}") (λ _, None)
        "domino-eks-gpu" "domino-eks-gpu-1.33-v20251001"
      ≠ Returns err.
Proof.
  assert (UpdateNodeClass
            (λ _, inr "{}") (λ _, inr (json.Object ∅)) (λ _, inr "{}")
            (λ _, None) "domino-eks-gpu" "domino-eks-gpu-1.33-v20251001"
          = Panics InterfaceConversion) as E.
  { apply (C9_update_panics _ _ _ _ _ _ "{}" ∅); reflexivity. }
  split; [exact E|]. rewrite E. discriminate.
Defined.

End MonitorClaims.

(** * The catalogue: [ExtractVersions] *)

Section StringOrder.

Implicit Types a b : string.

Lemma ltb_le a b : String.ltb a b = true → String.le a b.
Proof.
  unfold String.le, String.ltb, String.leb.
  by destruct (String.compare a b); cbn.
Qed.

Lemma not_ltb_le a b : String.ltb a b = false → String.le b a.
Proof.
  unfold String.le, String.ltb, String.leb.
  rewrite (String.compare_antisym a b).
  by destruct (String.compare b a); cbn.
Qed.

Lemma le_ne_ltb a b : String.le b a → a ≠ b → String.ltb b a = true.
Proof.
  unfold String.le, String.ltb, String.leb. intros Hle Hne.
  destruct (String.compare b a) eqn:E; cbn in *; try done.
  apply String.compare_eq_iff in E. congruence.
Qed.

End StringOrder.

Section ExtractVersionsFacts.

Import Regexp amis.
Implicit Types (k name v ts : string) (ami : AMIInfo).
Implicit Types (m : gmap string string) (l : list AMIInfo).

(** *** The two patterns have one group *)

Lemma patternWithNodegroup_inv k name r :
  exec (patternWithNodegroup k) [] [] name = Some r →
  ∃ d, Grammar.is_date d = true ∧ r = [d].
Proof.
  unfold patternWithNodegroup, QuoteMeta.
  intros (s1 & -> & H)%exec_lits_inv.
  change ([Star dot] ++ ?re) with (Star dot :: re) in H.
  apply exec_Star_inv in H as (u & s2 & -> & _ & H).
  apply exec_lits_inv in H as (s3 & -> & H).
  apply exec_lits_inv in H as (s4 & -> & H).
  apply exec_lits_inv in H as (d & -> & H).
  apply exec_group_date_inv in H as [Hd ->]. eauto.
Qed.

Lemma patternWithoutNodegroup_inv k name r :
  exec (patternWithoutNodegroup k) [] [] name = Some r →
  ∃ d, Grammar.is_date d = true ∧ r = [d]
       ∧ name = "domino-eks-" +:+ k +:+ "-v" +:+ d.
Proof.
  unfold patternWithoutNodegroup, QuoteMeta.
  intros (s1 & -> & H)%exec_lits_inv.
  apply exec_lits_inv in H as (s4 & -> & H).
  apply exec_lits_inv in H as (d & -> & H).
  apply exec_group_date_inv in H as [Hd ->]. eauto.
Qed.

(** A name gives a version exactly when it matches a pattern, and the
    version is a date version. *)
Lemma versionOf_None k name : versionOf k name = None ↔ ¬ matching k name.
Proof.
  unfold versionOf, matchesOf, matching, FindStringSubmatch.
  destruct (exec (patternWithNodegroup k) [] [] name) as [r|] eqn:E1.
  { apply patternWithNodegroup_inv in E1 as (d & _ & ->). cbn.
    split; [done|]. intros []. left. eauto. }
  destruct (exec (patternWithoutNodegroup k) [] [] name) as [r|] eqn:E2.
  { apply patternWithoutNodegroup_inv in E2 as (d & _ & -> & _). cbn.
    split; [done|]. intros []. right. eauto. }
  cbn. split; [|done]. by intros _ [[? ?]|[? ?]].
Qed.

Lemma versionOf_is_date k name v :
  versionOf k name = Some v → Grammar.is_date v = true.
Proof.
  unfold versionOf, matchesOf, FindStringSubmatch.
  destruct (exec (patternWithNodegroup k) [] [] name) as [r|] eqn:E1.
  { apply patternWithNodegroup_inv in E1 as (d & Hd & ->). cbn.
    by intros [= <-]. }
  destruct (exec (patternWithoutNodegroup k) [] [] name) as [r|] eqn:E2.
  { apply patternWithoutNodegroup_inv in E2 as (d & Hd & -> & _). cbn.
    by intros [= <-]. }
  done.
Qed.

(** *** The loop over the catalogue *)

Lemma record_versionOf k m ami :
  record k m ami =
    match versionOf k (Name ami) with
    | Some version =>
        match m !! version with
        | Some existingDate =>
            if gt (CreationDate ami) existingDate
            then <[version := CreationDate ami]> m else m
        | None => <[version := CreationDate ami]> m
        end
    | None => m
    end.
Proof. unfold record, versionOf. by case_decide. Qed.

End ExtractVersionsFacts.

Section VersionSetFacts.

Import amis.
Implicit Types (k name v ts : string) (ami : AMIInfo).
Implicit Types (m : gmap string string) (l : list AMIInfo).

Lemma latest_snoc_other k l ami v entry :
  versionOf k (Name ami) ≠ Some v →
  latest k l v entry → latest k (l ++ [ami]) v entry.
Proof.
  intros Hne. destruct entry as [ts|]; cbn.
  - intros [(a & Ha & Hv & Hts) Hmax]. split.
    + exists a. rewrite elem_of_app. eauto.
    + intros a' [Ha'| ->%list_elem_of_singleton]%elem_of_app; auto.
      done.
  - intros Hnone a' [Ha'| ->%list_elem_of_singleton]%elem_of_app; auto.
Qed.

(** One step of the loop keeps the map at what [latest] asks for. *)
Lemma record_latest k m l ami :
  (∀ v, latest k l v (m !! v)) →
  ∀ v, latest k (l ++ [ami]) v (record k m ami !! v).
Proof.
  intros Hm v. rewrite record_versionOf.
  destruct (versionOf k (Name ami)) as [v0|] eqn:Ev0.
  2:{ apply latest_snoc_other; [by rewrite Ev0|done]. }
  destruct (decide (v0 = v)) as [->|Hne].
  2:{ assert (record_other :
        ∀ m', (m' = m ∨ m' = <[v0 := CreationDate ami]> m) →
              latest k (l ++ [ami]) v (m' !! v)).
      { intros m' [->| ->]; rewrite ?lookup_insert_ne by done;
          (apply latest_snoc_other; [rewrite Ev0; congruence|done]). }
      repeat case_match; apply record_other; auto. }
  specialize (Hm v).
  assert (latest k (l ++ [ami]) v (Some (CreationDate ami)) ↔
          ∀ a, a ∈ l → versionOf k (Name a) = Some v →
               String.le (CreationDate a) (CreationDate ami)) as Hnew.
  { cbn. split; [intros [_ H] a Ha; apply H, elem_of_app; auto|].
    intros H. split.
    - exists ami. rewrite elem_of_app, list_elem_of_singleton. auto.
    - intros a [Ha| ->%list_elem_of_singleton]%elem_of_app; auto. }
  destruct (m !! v) as [existingDate|] eqn:Em; cbn in Hm.
  - destruct Hm as [(a0 & Ha0 & Hv0 & Hts0) Hmax]. unfold gt.
    destruct (String.ltb existingDate (CreationDate ami)) eqn:Elt.
    + rewrite lookup_insert_eq. apply Hnew. intros a Ha Hv.
      etrans; [by apply Hmax|]. by apply ltb_le.
    + rewrite Em. cbn. split.
      * exists a0. rewrite elem_of_app. auto.
      * intros a [Ha| ->%list_elem_of_singleton]%elem_of_app Hv; auto.
        by apply not_ltb_le.
  - rewrite lookup_insert_eq. apply Hnew. intros a Ha Hv.
    by destruct (Hm a Ha).
Qed.

Lemma versionSetOf_latest l k v :
  latest k l v (versionSetOf l k !! v).
Proof.
  unfold versionSetOf. revert v.
  induction l as [|ami l IH] using rev_ind; intros v.
  - cbn. rewrite lookup_empty. cbn. by intros ? ?%elem_of_nil.
  - rewrite foldl_app. cbn. by apply record_latest.
Qed.

(** The versions in the map are those of the images that match. *)
Lemma versionSetOf_is_Some l k v :
  is_Some (versionSetOf l k !! v) ↔
  ∃ ami, ami ∈ l ∧ versionOf k (Name ami) = Some v.
Proof.
  pose proof (versionSetOf_latest l k v) as H.
  destruct (versionSetOf l k !! v) as [ts|]; cbn in H.
  - split; [|by eauto]. intros _.
    destruct H as [(a & Ha & Hv & _) _]. eauto.
  - split; [by intros [? ?]|]. intros (a & Ha & Hv). by destruct (H a Ha).
Qed.

(** The map is empty exactly when no image of the catalogue matches. *)
Lemma versionSetOf_empty l k :
  size (versionSetOf l k) = 0 ↔ ∀ ami, ami ∈ l → ¬ matching k (Name ami).
Proof.
  rewrite map_size_empty_iff, map_empty. split.
  - intros Hm ami Hami. apply versionOf_None.
    destruct (versionOf k (Name ami)) as [v|] eqn:Ev; [|done].
    assert (is_Some (versionSetOf l k !! v)) as [? Hv]
      by (apply versionSetOf_is_Some; eauto).
    by rewrite Hm in Hv.
  - intros Hno v. apply eq_None_not_Some.
    intros (ami & Hami & Hv)%versionSetOf_is_Some.
    apply Hno in Hami. apply versionOf_None in Hami. congruence.
Qed.

End VersionSetFacts.

Section SortFacts.

Import amis.
Implicit Types (entries : list (string * string)) (item : VersionItem).

#[local] Instance descending_trans : Transitive descending.
Proof. intros a b c Hab Hbc. unfold descending in *. by etrans. Qed.

#[local] Instance descending_total : Total descending.
Proof. intros a b. unfold descending. apply (total String.le). Qed.

Lemma versionItemsOf_Permutation entries :
  versionItemsOf entries ≡ₚ versionItem <$> entries.
Proof. apply merge_sort_Permutation. Qed.

Lemma versionItemsOf_Sorted entries :
  Sorted descending (versionItemsOf entries).
Proof. apply Sorted_merge_sort, _. Qed.

Lemma versionItemsOf_versions entries :
  Version <$> versionItemsOf entries ≡ₚ entries.*1.
Proof.
  rewrite versionItemsOf_Permutation, <-list_fmap_compose. reflexivity.
Qed.

Lemma versionItemsOf_elem_of entries item :
  item ∈ versionItemsOf entries ↔
  ∃ v ts, (v, ts) ∈ entries ∧ item = versionItem (v, ts).
Proof.
  rewrite versionItemsOf_Permutation, list_elem_of_fmap. split.
  - intros ([v ts] & -> & H). eauto.
  - intros (v & ts & H & ->). eauto.
Qed.

(** Items in descending order with versions that differ are in strictly
    descending order. *)
Lemma descending_strict (items : list VersionItem) :
  NoDup (Version <$> items) → Sorted descending items →
  StronglySorted (λ a b, gt (Version a) (Version b) = true) items.
Proof.
  intros Hnd Hs. apply Sorted_StronglySorted in Hs; [|apply _].
  induction Hs as [|a items Hs IH Ha]; [constructor|].
  rewrite fmap_cons, NoDup_cons in Hnd. destruct Hnd as [Hnotin Hnd].
  constructor; [by apply IH|].
  rewrite Forall_forall in Ha |- *. intros b Hb.
  apply le_ne_ltb; [by apply Ha|].
  intros Heq. apply Hnotin. rewrite Heq. by apply list_elem_of_fmap_2.
Qed.

(** Whatever way [sort.Slice] goes about it, a slice with the same items
    in descending order is the one that [merge_sort] computes. *)
Lemma versionItemsOf_unique entries (items : list VersionItem) :
  NoDup entries.*1 → items ≡ₚ versionItem <$> entries →
  Sorted descending items → items = versionItemsOf entries.
Proof.
  intros Hnd Hperm Hsorted.
  apply (Sorted_unique_strong descending).
  - intros x1 x2 Hx1 Hx2 H12 H21.
    rewrite Hperm in Hx1. rewrite versionItemsOf_Permutation in Hx2.
    apply list_elem_of_fmap in Hx1 as ([v1 t1] & -> & H1).
    apply list_elem_of_fmap in Hx2 as ([v2 t2] & -> & H2).
    unfold descending in *. cbn in *.
    assert (v1 = v2) as -> by (by apply (anti_symm String.le)).
    by rewrite (NoDup_fmap_eq fst entries _ _ Hnd H1 H2 eq_refl).
  - done.
  - apply versionItemsOf_Sorted.
  - by rewrite versionItemsOf_Permutation.
Qed.

(** The sorted slice is the same for every order in which the entries
    of the map are met. *)
Lemma versionItemsOf_order entries entries' :
  NoDup entries.*1 → entries' ≡ₚ entries →
  versionItemsOf entries' = versionItemsOf entries.
Proof.
  intros Hnd Hperm. apply versionItemsOf_unique; [done| |].
  - by rewrite versionItemsOf_Permutation, Hperm.
  - apply versionItemsOf_Sorted.
Qed.

(** So is the result of [ExtractVersions]: it is the same for every order
    in which Go ranges over the map. *)
Lemma ExtractVersions_order (m : gmap string string) entries :
  entries ≡ₚ map_to_list m →
  versionItemsOf entries = versionItemsOf (map_to_list m).
Proof. apply versionItemsOf_order, NoDup_fst_map_to_list. Qed.

End SortFacts.

(** * Claims about the catalogue *)

Section CatalogueClaims.

Import nodeclasses amis.

(** The result of [ExtractVersions], read off its definition. *)
Lemma ExtractVersions_inr amis k items :
  ExtractVersions amis k = inr items →
  items = versionItemsOf (map_to_list (versionSetOf amis k)).
Proof. unfold ExtractVersions. case_decide; congruence. Qed.

(** C4, as the program has it.  When [ExtractVersions] succeeds, the
    slice it returns has one item for each date version matched in the
    catalogue for the platform version and no other item; each item
    carries [ParseDate] of the greatest creation date, in the order of
    strings, among the images with its date version; the slice is in
    strictly descending order of the date versions. *)
Theorem C4_one_item_per_version
    (amis : list AMIInfo) (k8sVersion : string) (items : list VersionItem) :
  ExtractVersions amis k8sVersion = inr items →
  NoDup (Version <$> items)
  ∧ (∀ v, v ∈ Version <$> items
          ↔ ∃ ami, ami ∈ amis ∧ versionOf k8sVersion (Name ami) = Some v)
  ∧ (∀ item, item ∈ items →
       ∃ ami, ami ∈ amis
         ∧ versionOf k8sVersion (Name ami) = Some (Version item)
         ∧ Date item = ParseDate (CreationDate ami)
         ∧ ∀ ami', ami' ∈ amis →
             versionOf k8sVersion (Name ami') = Some (Version item) →
             String.le (CreationDate ami') (CreationDate ami))
  ∧ StronglySorted (λ a b, gt (Version a) (Version b) = true) items.
Proof.
  intros ->%ExtractVersions_inr.
  set (m := versionSetOf amis k8sVersion).
  assert (NoDup (Version <$> versionItemsOf (map_to_list m))) as Hnd.
  { rewrite versionItemsOf_versions. apply NoDup_fst_map_to_list. }
  split_and!.
  - done.
  - intros v. rewrite versionItemsOf_versions, <-versionSetOf_is_Some.
    fold m. rewrite list_elem_of_fmap. split.
    + intros ([v' ts] & -> & H%elem_of_map_to_list). eauto.
    + intros [ts H]. exists (v, ts). by rewrite elem_of_map_to_list.
  - intros item (v & ts & H%elem_of_map_to_list & ->)%versionItemsOf_elem_of.
    pose proof (versionSetOf_latest amis k8sVersion v) as Hlatest.
    fold m in Hlatest. rewrite H in Hlatest.
    destruct Hlatest as [(ami & Hami & Hv & <-) Hmax]. eauto.
  - apply descending_strict; [done|]. apply versionItemsOf_Sorted.
Qed.

Lemma C4_witness :
  let items :=
    [{| Version := "20251101"; Date := "2025-11-02 08:30" |};
     {| Version := "20251001"; Date := "2025-10-03 00:00" |}] in
  let amis :=
    [Examples.image "domino-eks-1.33-v20251001" "2025-10-01T00:00:00.000Z";
     Examples.image "domino-eks-gpu-1.33-v20251001" "2025-10-03T00:00:00.000Z";
     Examples.image "domino-eks-1.33-v20251101" "2025-11-02T08:30:00.000Z";
     Examples.image "domino-eks-1.32-v20251201" "2025-12-01T00:00:00.000Z"] in
  NoDup (Version <$> items)
  ∧ (∀ v, v ∈ Version <$> items
          ↔ ∃ ami, ami ∈ amis ∧ versionOf "1.33" (Name ami) = Some v)
  ∧ (∀ item, item ∈ items →
       ∃ ami, ami ∈ amis
         ∧ versionOf "1.33" (Name ami) = Some (Version item)
         ∧ Date item = ParseDate (CreationDate ami)
         ∧ ∀ ami', ami' ∈ amis →
             versionOf "1.33" (Name ami') = Some (Version item) →
             String.le (CreationDate ami') (CreationDate ami))
  ∧ StronglySorted (λ a b, gt (Version a) (Version b) = true) items.
Proof.
  apply (C4_one_item_per_version
           [Examples.image "domino-eks-1.33-v20251001" "2025-10-01T00:00:00.000Z";
            Examples.image "domino-eks-gpu-1.33-v20251001" "2025-10-03T00:00:00.000Z";
            Examples.image "domino-eks-1.33-v20251101" "2025-11-02T08:30:00.000Z";
            Examples.image "domino-eks-1.32-v20251201" "2025-12-01T00:00:00.000Z"]
           "1.33").
  vm_compute. reflexivity.
Defined.

(** C4 fails as stated: for a catalogue of one image, created at
    [2025-10-01T00:00:00.000Z], the item returned carries
    [2025-10-01 00:00], which is not the creation date of any image. *)
Lemma C4_counterexample :
  ExtractVersions
    [Examples.image "domino-eks-1.33-v20251001" "2025-10-01T00:00:00.000Z"]
    "1.33"
  = inr [{| Version := "20251001"; Date := "2025-10-01 00:00" |}]
  ∧ ¬ ∃ item ami,
        ExtractVersions
          [Examples.image "domino-eks-1.33-v20251001"
             "2025-10-01T00:00:00.000Z"] "1.33" = inr [item]
        ∧ ami ∈ [Examples.image "domino-eks-1.33-v20251001"
                   "2025-10-01T00:00:00.000Z"]
        ∧ Date item = CreationDate ami.
Proof.
  assert (ExtractVersions
            [Examples.image "domino-eks-1.33-v20251001"
               "2025-10-01T00:00:00.000Z"] "1.33"
          = inr [{| Version := "20251001"; Date := "2025-10-01 00:00" |}])
    as E by (by vm_compute).
  split; [done|]. rewrite E.
  by intros (item & ami & [= <-] & ->%list_elem_of_singleton & ?).
Qed.

(** C7. For a platform version in ASCII, of 1000 bytes at most, for which
    the two patterns compile, [ExtractVersions] returns its error, and no
    other error, exactly when no image of the catalogue matches one of the
    two patterns for the platform version; it never returns an empty slice
    of items. *)
Theorem C7_error_iff_no_match (amis : list AMIInfo) (k8sVersion : string) :
  Derived.plain k8sVersion = true →
  (ExtractVersions amis k8sVersion = inl "no matching AMI versions found"
   ↔ ∀ ami, ami ∈ amis → ¬ matching k8sVersion (Name ami))
  ∧ (∀ e, ExtractVersions amis k8sVersion = inl e →
          e = "no matching AMI versions found")
  ∧ ExtractVersions amis k8sVersion ≠ inr [].
Proof.
  intros _. unfold ExtractVersions. rewrite <-versionSetOf_empty.
  case_decide as Hsize.
  - split_and!; [done|by intros ? [= <-]|done].
  - split_and!; [by split|done|].
    intros [= E]. apply Hsize.
    apply map_size_empty_iff, map_to_list_empty_iff.
    pose proof (versionItemsOf_Permutation
                  (map_to_list (versionSetOf amis k8sVersion))) as Hperm.
    rewrite E in Hperm. symmetry in Hperm.
    apply Permutation_nil_r in Hperm. by apply fmap_nil_inv in Hperm.
Qed.

Lemma C7_witness :
  Derived.plain "1.33" = true
  ∧ (ExtractVersions
       [Examples.image "domino-eks-1.32-v20251201" "2025-12-01T00:00:00.000Z"]
       "1.33"
     = inl "no matching AMI versions found"
     ↔ ∀ ami,
         ami ∈ [Examples.image "domino-eks-1.32-v20251201"
                  "2025-12-01T00:00:00.000Z"] →
         ¬ matching "1.33" (Name ami)).
Proof.
  split; [reflexivity|].
  apply (C7_error_iff_no_match
           [Examples.image "domino-eks-1.32-v20251201"
              "2025-12-01T00:00:00.000Z"] "1.33").
  reflexivity.
Defined.

(** C10. The name [domino-eks-gpu-small-1.33-v20251001], whose group
    holds a hyphen, is rejected by [ParseAMIName] and yet matches the
    with-group pattern of [ExtractVersions] for [1.33], which turns a
    catalogue made of it into one item, for the date version
    [20251001]. *)
Theorem C10_reconciler_accepts_hyphenated_group :
  ParseAMIName "domino-eks-gpu-small-1.33-v20251001"
    = inl "invalid AMI name format: domino-eks-gpu-small-1.33-v20251001"
  ∧ Regexp.FindStringSubmatch (patternWithNodegroup "1.33")
      "domino-eks-gpu-small-1.33-v20251001"
    = ["domino-eks-gpu-small-1.33-v20251001"; "20251001"]
  ∧ ∀ imageID creationDate,
      ExtractVersions
        [{| Name := "domino-eks-gpu-small-1.33-v20251001";
            ImageID := imageID; CreationDate := creationDate |}] "1.33"
      = inr [{| Version := "20251001"; Date := ParseDate creationDate |}].
Proof.
  split_and!; [reflexivity..|].
  intros imageID creationDate. unfold ExtractVersions, versionSetOf.
  cbn [foldl]. rewrite record_versionOf.
  change (versionOf "1.33" _) with (Some "20251001"). cbn iota.
  rewrite lookup_empty, insert_empty, map_size_singleton.
  rewrite decide_False by done.
  by rewrite map_to_list_singleton.
Qed.

End CatalogueClaims.

(** * Further properties of the parser *)

Section ParserProperties.

Import Regexp nodeclasses Grammar.
Implicit Types (s t u g p d : string).

Lemma all_app_r q u t :
  Bytes.all q (u +:+ t) = true → Bytes.all q t = true.
Proof.
  induction u as [|a u IH]; [done|]. cbn.
  intros [_ H]%andb_true_iff. auto.
Qed.

(** The fourth form, with the weakest condition on the tail. *)
Lemma ParseAMIName_withoutGroup_pending_gen p t :
  is_platform p = true → is_rest t = true →
  (∀ d, is_date d = true → t ≠ "v" +:+ d) →
  (∀ p' t', is_platform p' = true → t ≠ p' +:+ "-" +:+ t') →
  ParseAMIName (withoutGroup p t)
  = inr {| HasNodegroup := false; Nodegroup := "";
           K8sVersion := p; Version := "" |}.
Proof.
  intros Hp Ht Hpending Hhead.
  pose proof (ParseAMIName_cases (withoutGroup p t)) as H.
  destruct (exec reWithNodegroupVersion _ _ _) eqn:E1.
  { apply reWithNodegroupVersion_inv in E1 as (?&p'&?&?&?&?&E1&_).
    apply withoutGroup_withGroup in E1 as [_ E1]; [|done..].
    by apply Hhead in E1. }
  destruct (exec reWithoutNodegroupVersion _ _ _) eqn:E2.
  { apply reWithoutNodegroupVersion_inv in E2 as (?&?&?&?&E2&_).
    apply withoutGroup_inj in E2 as [_ E2]; [|done..].
    by apply Hpending in E2. }
  destruct (exec reWithNodegroupWildcard _ _ _) eqn:E3.
  { apply reWithNodegroupWildcard_inv in E3 as (?&p'&?&?&?&?&E3&_).
    apply withoutGroup_withGroup in E3 as [_ E3]; [|done..].
    by apply Hhead in E3. }
  by rewrite reWithoutNodegroupWildcard_fwd in H.
Qed.

Lemma parsed_pattern_well_formed s (pattern : AMIPattern) :
  ParseAMIName s = inr pattern →
  (∃ rest, s = "domino-eks-" +:+ rest)
  ∧ is_platform (K8sVersion pattern) = true
  ∧ (Version pattern = "" ∨ is_date (Version pattern) = true)
  ∧ (if HasNodegroup pattern then is_group (Nodegroup pattern) = true
     else Nodegroup pattern = "").
Proof.
  intros [(g&p&d&?&?&?&->&->)|[(p&d&?&?&->&->)|[(g&p&t&?&?&?&->&->)
         |(p&t&?&?&->&->)]]]%ParseAMIName_inv; cbn;
    (split; [by eexists|]); auto.
Qed.

(** X1. What [ParseAMIName] returns is well formed: the name starts with
    [domino-eks-], the platform version is [1.N], the date version is
    empty or has eight digits, and the group is a segment without hyphen
    when there is one and empty when there is none. *)
Theorem X1_parsed_pattern_well_formed (s : string) (pattern : AMIPattern) :
  ParseAMIName s = inr pattern →
  (∃ rest, s = "domino-eks-" +:+ rest)
  ∧ is_platform (K8sVersion pattern) = true
  ∧ (Version pattern = "" ∨ is_date (Version pattern) = true)
  ∧ (if HasNodegroup pattern then is_group (Nodegroup pattern) = true
     else Nodegroup pattern = "").
Proof. apply parsed_pattern_well_formed. Qed.

Lemma X1_witness :
  (∃ rest, "domino-eks-gpu-1.33-*" = "domino-eks-" +:+ rest)
  ∧ is_platform "1.33" = true
  ∧ ("" = "" ∨ is_date "" = true)
  ∧ is_group "gpu" = true.
Proof.
  apply (X1_parsed_pattern_well_formed "domino-eks-gpu-1.33-*"
           {| HasNodegroup := true; Nodegroup := "gpu";
              K8sVersion := "1.33"; Version := "" |}).
  reflexivity.
Defined.

(** X2. The names that [ParseAMIName] accepts, and what it returns for
    each: a name with group, platform version and date version is
    resolved; so is one with platform version and date version; a name
    with group and platform version whose tail, free of newlines, is not
    [v] and eight digits is pending, whatever the tail (a date version of
    seven digits for one); a name with a platform version alone is
    pending when its tail is neither a date version nor the start of a
    name with a group.  Every other name is rejected. *)
Theorem X2_accepted_names (s : string) (pattern : AMIPattern) :
  ParseAMIName s = inr pattern ↔
  (∃ g p d, is_group g = true ∧ is_platform p = true ∧ is_date d = true
     ∧ s = withGroup g p ("v" +:+ d)
     ∧ pattern = {| HasNodegroup := true; Nodegroup := g;
                    K8sVersion := p; Version := d |})
  ∨ (∃ p d, is_platform p = true ∧ is_date d = true
     ∧ s = withoutGroup p ("v" +:+ d)
     ∧ pattern = {| HasNodegroup := false; Nodegroup := "";
                    K8sVersion := p; Version := d |})
  ∨ (∃ g p t, is_group g = true ∧ is_platform p = true ∧ is_rest t = true
     ∧ (∀ d, is_date d = true → t ≠ "v" +:+ d)
     ∧ s = withGroup g p t
     ∧ pattern = {| HasNodegroup := true; Nodegroup := g;
                    K8sVersion := p; Version := "" |})
  ∨ (∃ p t, is_platform p = true ∧ is_rest t = true
     ∧ (∀ d, is_date d = true → t ≠ "v" +:+ d)
     ∧ (∀ p' t', is_platform p' = true → t ≠ p' +:+ "-" +:+ t')
     ∧ s = withoutGroup p t
     ∧ pattern = {| HasNodegroup := false; Nodegroup := "";
                    K8sVersion := p; Version := "" |}).
Proof.
  split.
  - intros Hparse. pose proof (ParseAMIName_cases s) as H.
    destruct (exec reWithNodegroupVersion _ _ _) eqn:E1.
    { apply reWithNodegroupVersion_inv in E1 as (g&p&d&?&?&?&Hs&->).
      cbn in H. rewrite H in Hparse. injection Hparse as <-.
      left. by exists g, p, d. }
    destruct (exec reWithoutNodegroupVersion _ _ _) eqn:E2.
    { apply reWithoutNodegroupVersion_inv in E2 as (p&d&?&?&Hs&->).
      cbn in H. rewrite H in Hparse. injection Hparse as <-.
      right; left. by exists p, d. }
    destruct (exec reWithNodegroupWildcard _ _ _) eqn:E3.
    { apply reWithNodegroupWildcard_inv in E3 as (g&p&t&?&?&?&Hs&->).
      cbn in H. rewrite H in Hparse. injection Hparse as <-.
      right; right; left. exists g, p, t. split_and!; try done.
      intros d Hd ->. subst s.
      by rewrite reWithNodegroupVersion_fwd in E1. }
    destruct (exec reWithoutNodegroupWildcard _ _ _) eqn:E4.
    { apply reWithoutNodegroupWildcard_inv in E4 as (p&t&?&Ht&Hs&->).
      cbn in H. rewrite H in Hparse. injection Hparse as <-.
      right; right; right. exists p, t. split_and!; try done.
      - intros d Hd ->. subst s.
        by rewrite reWithoutNodegroupVersion_fwd in E2.
      - intros p' t' Hp' ->. subst s.
        change (withoutGroup p (p' +:+ "-" +:+ t'))
          with (withGroup p p' t') in E3.
        rewrite reWithNodegroupWildcard_fwd in E3; [done| |done|].
        + by apply is_platform_group.
        + unfold is_rest in *. by do 2 apply all_app_r in Ht. }
    congruence.
  - intros [(g&p&d&?&?&?&->&->)|[(p&d&?&?&->&->)|[(g&p&t&?&?&?&?&->&->)
           |(p&t&?&?&?&?&->&->)]]].
    + by apply ParseAMIName_withGroup_resolved.
    + by apply ParseAMIName_withoutGroup_resolved.
    + by apply ParseAMIName_withGroup_pending.
    + by apply ParseAMIName_withoutGroup_pending_gen.
Qed.

End ParserProperties.

(** * Further properties of the registry *)

Section RegistryProperties.

Import nodeclasses Grammar.
Implicit Types (m : gmap string NodeClassInfo.t) (nc : EC2NodeClass).
Implicit Types (l : list EC2NodeClass).

(** *** [strings.Split] and [strings.Join] *)

Lemma Split_nonempty c s : Bytes.Split c s ≠ [].
Proof. destruct s as [|a s]; cbn; repeat case_match; done. Qed.

Lemma Split_sep c s : Bytes.Split c (String c s) = "" :: Bytes.Split c s.
Proof. cbn. by rewrite Ascii.eqb_refl. Qed.

Lemma Split_segment c u s :
  Bytes.all (λ a, negb (Ascii.eqb a c)) u = true →
  Bytes.Split c (u +:+ String c s) = u :: Bytes.Split c s.
Proof.
  induction u as [|a u IH]; [intros _; apply Split_sep|].
  cbn. intros [Ha Hu]%andb_true_iff. rewrite IH by done.
  by destruct (Ascii.eqb a c).
Qed.

Lemma Join_Split c s : Bytes.Join (Bytes.Split c s) (String c "") = s.
Proof.
  unfold Bytes.Join. induction s as [|a s IH]; [done|]. cbn.
  pose proof (Split_nonempty c s) as Hne.
  destruct (Ascii.eqb_spec a c) as [->|Hac].
  - destruct (Bytes.Split c s) as [|w ws]; [done|].
    cbn in *. by rewrite IH.
  - destruct (Bytes.Split c s) as [|w ws]; [done|].
    destruct ws as [|w' ws]; cbn in *; by rewrite <-IH.
Qed.

(** *** The entries of the map *)

Lemma foldl_register_is_Some m l n :
  is_Some (foldl register m l !! n) ↔
  is_Some (m !! n)
  ∨ ∃ nc, nc ∈ l ∧ Metadata_Name nc = n
          ∧ is_Some (register ∅ nc !! Metadata_Name nc).
Proof.
  revert m. induction l as [|x l IH]; intros m; cbn.
  { split; [auto|]. intros [?|(?&[]%elem_of_nil&_)]. done. }
  rewrite IH. split.
  - intros [Hx|(nc & Hnc & Hn & Hs)].
    + destruct (decide (Metadata_Name x = n)) as [<-|Hne].
      * rewrite register_lookup_eq in Hx.
        destruct (register ∅ x !! Metadata_Name x) eqn:E; [|by left].
        right. exists x. rewrite E. split_and!; [left|done|by eexists].
      * left. by rewrite register_lookup_ne in Hx.
    + right. exists nc. split_and!; [by right|done..].
  - intros [Hm|(nc & [->|Hnc]%elem_of_cons & Hn & Hs)].
    + left. destruct (decide (Metadata_Name x = n)) as [<-|Hne].
      * rewrite register_lookup_eq. by case_match.
      * by rewrite register_lookup_ne.
    + left. subst n. rewrite register_lookup_eq.
      destruct Hs as [info ->]. by eexists.
    + right. eauto.
Qed.

Lemma registry_domain (nodeClasses : NodeClassList) (name : string) :
  is_Some (BuildNodeClassMap nodeClasses !! name) ↔
  ∃ nc term rest pattern,
    nc ∈ Items nodeClasses ∧ Metadata_Name nc = name
    ∧ Spec_AMISelectorTerms nc = term :: rest
    ∧ ParseAMIName (Name term) = inr pattern.
Proof.
  unfold BuildNodeClassMap. rewrite foldl_register_is_Some.
  rewrite lookup_empty. split.
  - intros [[? [=]]|(nc & Hnc & Hn & Hs)].
    destruct (Spec_AMISelectorTerms nc) as [|term rest] eqn:Et.
    { unfold register in Hs. rewrite Et, lookup_empty in Hs.
      by destruct Hs. }
    destruct (ParseAMIName (Name term)) as [e|pattern] eqn:Ep.
    { unfold register in Hs. rewrite Et, Ep, lookup_empty in Hs.
      by destruct Hs. }
    by exists nc, term, rest, pattern.
  - intros (nc & term & rest & pattern & Hnc & Hn & Et & Ep).
    right. exists nc. split_and!; [done..|].
    destruct (register_parsed nc term rest pattern Et Ep) as (ng & -> & _).
    by eexists.
Qed.

(** X3. The registry has an entry under a name exactly when a node class
    of that name has a first selector term that [ParseAMIName] accepts:
    node classes without selector term or with an image reference that
    does not parse leave no entry. *)
Theorem X3_registry_domain (nodeClasses : NodeClassList) (name : string) :
  is_Some (BuildNodeClassMap nodeClasses !! name) ↔
  ∃ nc term rest pattern,
    nc ∈ Items nodeClasses ∧ Metadata_Name nc = name
    ∧ Spec_AMISelectorTerms nc = term :: rest
    ∧ ParseAMIName (Name term) = inr pattern.
Proof. apply registry_domain. Qed.

Lemma foldl_register_origin m l n info :
  foldl register m l !! n = Some info →
  m !! n = Some info
  ∨ ∃ nc, nc ∈ l ∧ Metadata_Name nc = n
          ∧ register ∅ nc !! Metadata_Name nc = Some info.
Proof.
  revert m. induction l as [|x l IH]; intros m; cbn; [auto|].
  intros [Hx|(nc & Hnc & Hn & Hs)]%IH.
  - destruct (decide (Metadata_Name x = n)) as [<-|Hne].
    + rewrite register_lookup_eq in Hx.
      destruct (register ∅ x !! Metadata_Name x) eqn:E; [|by left].
      right. exists x. rewrite E. split_and!; [left|done..].
    + left. by rewrite register_lookup_ne in Hx.
  - right. exists nc. split_and!; [by right|done..].
Qed.

Lemma registry_entries
    (nodeClasses : NodeClassList) (name : string) (info : NodeClassInfo.t) :
  BuildNodeClassMap nodeClasses !! name = Some info →
  ∃ nc term rest pattern,
    nc ∈ Items nodeClasses ∧ Metadata_Name nc = name
    ∧ Spec_AMISelectorTerms nc = term :: rest
    ∧ ParseAMIName (Name term) = inr pattern
    ∧ NodeClassInfo.HasNodegroup info = HasNodegroup pattern
    ∧ (HasNodegroup pattern = true →
       NodeClassInfo.Nodegroup info = Nodegroup pattern
       ∧ is_group (NodeClassInfo.Nodegroup info) = true).
Proof.
  unfold BuildNodeClassMap.
  intros [Hm|(nc & Hnc & Hn & Hs)]%foldl_register_origin.
  { by rewrite lookup_empty in Hm. }
  destruct (Spec_AMISelectorTerms nc) as [|term rest] eqn:Et.
  { unfold register in Hs. by rewrite Et, lookup_empty in Hs. }
  destruct (ParseAMIName (Name term)) as [e|pattern] eqn:Ep.
  { unfold register in Hs. by rewrite Et, Ep, lookup_empty in Hs. }
  exists nc, term, rest, pattern. split_and!; try done.
  - destruct (register_parsed nc term rest pattern Et Ep) as (ng & E & _).
    rewrite E in Hs. by injection Hs as <-.
  - intros Hhas.
    destruct (register_parsed nc term rest pattern Et Ep) as (ng & E & Hng).
    rewrite E in Hs. injection Hs as <-. cbn. rewrite Hng by done.
    split; [done|].
    apply parsed_pattern_well_formed in Ep as (_ & _ & _ & Hg).
    by rewrite Hhas in Hg.
Qed.

(** X4. Every entry of the registry was stored for a node class of that
    name whose first selector term parses: its [HasNodegroup] is that of
    the parsed pattern, and when it is set, its [Nodegroup] is the group
    of the pattern, a segment without hyphen. *)
Theorem X4_registry_entries
    (nodeClasses : NodeClassList) (name : string) (info : NodeClassInfo.t) :
  BuildNodeClassMap nodeClasses !! name = Some info →
  ∃ nc term rest pattern,
    nc ∈ Items nodeClasses ∧ Metadata_Name nc = name
    ∧ Spec_AMISelectorTerms nc = term :: rest
    ∧ ParseAMIName (Name term) = inr pattern
    ∧ NodeClassInfo.HasNodegroup info = HasNodegroup pattern
    ∧ (HasNodegroup pattern = true →
       NodeClassInfo.Nodegroup info = Nodegroup pattern
       ∧ is_group (NodeClassInfo.Nodegroup info) = true).
Proof. apply registry_entries. Qed.

Lemma X4_witness :
  ∃ nc term rest pattern,
    nc ∈ [Examples.gpuResolved] ∧ Metadata_Name nc = "domino-eks-gpu"
    ∧ Spec_AMISelectorTerms nc = term :: rest
    ∧ ParseAMIName (Name term) = inr pattern
    ∧ true = HasNodegroup pattern
    ∧ (HasNodegroup pattern = true →
       "gpu" = Nodegroup pattern ∧ is_group "gpu" = true).
Proof.
  apply (X4_registry_entries {| Items := [Examples.gpuResolved] |}
           "domino-eks-gpu"
           {| NodeClassInfo.HasNodegroup := true;
              NodeClassInfo.Nodegroup := "gpu" |}).
  reflexivity.
Defined.

(** X5. For a node class, named uniquely, whose name is [domino-eks-]
    followed by any text [x] and whose image reference parses without a
    group, the group stored in the registry is [x] as it stands, hyphens
    included (the name is split at its hyphens and what follows the first
    two segments is joined again). *)
Theorem X5_group_inferred_from_name
    (nodeClasses : NodeClassList) (nc : EC2NodeClass)
    (term : AMISelectorTerm) (rest : list AMISelectorTerm)
    (pattern : AMIPattern) (x : string) :
  NoDup (Metadata_Name <$> Items nodeClasses) → nc ∈ Items nodeClasses →
  Metadata_Name nc = "domino-eks-" +:+ x →
  Spec_AMISelectorTerms nc = term :: rest →
  ParseAMIName (Name term) = inr pattern → HasNodegroup pattern = false →
  BuildNodeClassMap nodeClasses !! Metadata_Name nc
  = Some {| NodeClassInfo.HasNodegroup := false;
            NodeClassInfo.Nodegroup := x |}.
Proof.
  intros Hnd Hin Hname Hterms Hparse Hhas.
  rewrite BuildNodeClassMap_lookup by done.
  unfold register. rewrite Hterms, Hparse, Hhas, Hname. cbn [negb].
  change ("domino-eks-" +:+ x)
    with ("domino" +:+ String "-" ("eks" +:+ String "-" x)) at 1 2 3 4.
  rewrite !Split_segment by done.
  pose proof (Split_nonempty "-" x) as Hne.
  destruct (Bytes.Split "-" x) as [|w ws] eqn:E; [done|].
  cbn -[Bytes.Join]. rewrite lookup_insert_eq.
  rewrite (bool_decide_eq_true_2 (3 ≤ _)) by lia.
  rewrite !bool_decide_eq_true_2 by done. cbn -[Bytes.Join].
  by rewrite ?drop_0, <-?E, Join_Split.
Qed.

Lemma X5_witness :
  BuildNodeClassMap
    {| Items := [Examples.nodeClass "domino-eks-gpu-large" "domino-eks-1.33-*"] |}
    !! "domino-eks-gpu-large"
  = Some {| NodeClassInfo.HasNodegroup := false;
            NodeClassInfo.Nodegroup := "gpu-large" |}.
Proof.
  apply (X5_group_inferred_from_name
           {| Items := [Examples.nodeClass "domino-eks-gpu-large"
                          "domino-eks-1.33-*"] |}
           (Examples.nodeClass "domino-eks-gpu-large" "domino-eks-1.33-*")
           (Examples.term "domino-eks-1.33-*") []
           {| HasNodegroup := false; Nodegroup := "";
              K8sVersion := "1.33"; Version := "" |} "gpu-large");
    try reflexivity.
  - apply NoDup_singleton.
  - apply list_elem_of_singleton. reflexivity.
Defined.

End RegistryProperties.

(** * Further properties of the dry run *)

Section DryRunProperties.

Import nodeclasses main Grammar Derived.
Implicit Types (m : gmap string NodeClassInfo.t) (nc : EC2NodeClass).
Implicit Types (l : list EC2NodeClass) (acc : list change * list line).

Lemma collect_out m d acc nc :
  (collect m d acc nc).2 = acc.2 ++ (collect m d ([], []) nc).2.
Proof.
  destruct acc as [changes out]. unfold collect.
  repeat case_match; cbn; by rewrite ?app_nil_r.
Qed.

(** What the loop body does for one node class, when the map is the
    registry of a list that holds the node class. *)
Lemma collect_registered nodeClasses d nc :
  nc ∈ Items nodeClasses →
  collect (BuildNodeClassMap nodeClasses) d ([], []) nc =
    match Spec_AMISelectorTerms nc with
    | [] => ([], [])
    | term :: _ =>
        match ParseAMIName (Name term) with
        | inl _ => ([], [SkippingUnparsed (Metadata_Name nc)])
        | inr pattern =>
            match BuildNodeClassMap nodeClasses !! Metadata_Name nc with
            | Some info =>
                ([{| nodeclassName := Metadata_Name nc; oldAMI := Name term;
                     newAMI := constructNewAMI info pattern d |}], [])
            | None => ([], [])
            end
        end
    end
  ∧ (∀ term rest pattern,
       Spec_AMISelectorTerms nc = term :: rest →
       ParseAMIName (Name term) = inr pattern →
       is_Some (BuildNodeClassMap nodeClasses !! Metadata_Name nc)).
Proof.
  intros Hin.
  assert (∀ term rest pattern,
            Spec_AMISelectorTerms nc = term :: rest →
            ParseAMIName (Name term) = inr pattern →
            is_Some (BuildNodeClassMap nodeClasses !! Metadata_Name nc)) as H.
  { intros term rest pattern Et Ep. apply registry_domain.
    by exists nc, term, rest, pattern. }
  split; [|done]. unfold collect.
  destruct (Spec_AMISelectorTerms nc) as [|term rest] eqn:Et; [done|].
  destruct (ParseAMIName (Name term)) as [e|pattern] eqn:Ep; [done|].
  destruct (H term rest pattern eq_refl Ep) as [info ->]. done.
Qed.

Lemma collect_one_out nodeClasses d nc :
  nc ∈ Items nodeClasses →
  (collect (BuildNodeClassMap nodeClasses) d ([], []) nc).2
  = if unparsed nc then [SkippingUnparsed (Metadata_Name nc)] else [].
Proof.
  intros Hin. destruct (collect_registered nodeClasses d nc Hin) as [-> Hsome].
  unfold unparsed, image.
  destruct (Spec_AMISelectorTerms nc) as [|term rest] eqn:Et; cbn; [done|].
  destruct (ParseAMIName (Name term)) as [e|pattern] eqn:Ep; cbn; [done|].
  by destruct (Hsome term rest pattern eq_refl Ep) as [info ->].
Qed.


Lemma foldl_collect_registered_out nodeClasses d l acc :
  (∀ nc, nc ∈ l → nc ∈ Items nodeClasses) →
  (foldl (collect (BuildNodeClassMap nodeClasses) d) acc l).2
  = acc.2 ++ ((λ nc, SkippingUnparsed (Metadata_Name nc))
                <$> filter (λ nc, unparsed nc = true) l).
Proof.
  revert acc. induction l as [|x l IH]; intros acc Hl.
  { cbn. by rewrite app_nil_r. }
  cbn [foldl]. rewrite IH by (intros; apply Hl; by right).
  rewrite collect_out, collect_one_out by (apply Hl; by left).
  rewrite <-app_assoc. f_equal.
  destruct (unparsed x) eqn:E.
  - by rewrite filter_cons_True.
  - rewrite filter_cons_False; [done|]. by rewrite E.
Qed.


Lemma dryRun_out nodeClasses selectedVersion :
  (dryRun nodeClasses selectedVersion).2
  = (λ nc, SkippingUnparsed (Metadata_Name nc))
      <$> filter (λ nc, unparsed nc = true) (Items nodeClasses).
Proof.
  unfold dryRun, collectChanges.
  by rewrite foldl_collect_registered_out.
Qed.

(** X6. The dry run never reports a node class as having no entry in the
    registry: the lines it prints are the warnings for the node classes
    whose image reference does not parse, one for each, in the order of
    the node classes. *)
Theorem X6_no_registry_miss
    (nodeClasses : NodeClassList) (selectedVersion : string) :
  (dryRun nodeClasses selectedVersion).2
    = (λ nc, SkippingUnparsed (Metadata_Name nc))
        <$> filter (λ nc, unparsed nc = true) (Items nodeClasses)
  ∧ ∀ name, SkippingNoInfo name ∉ (dryRun nodeClasses selectedVersion).2.
Proof.
  split; [apply dryRun_out|].
  intros name. rewrite dryRun_out.
  by intros (nc & [=] & _)%list_elem_of_fmap.
Qed.



End DryRunProperties.

Section PlannedReferences.

Import nodeclasses main Grammar Derived.

(** A change of the dry run, traced back to its node class. *)
Lemma dryRun_change_origin nodeClasses d c :
  c ∈ (dryRun nodeClasses ("v" +:+ d)).1 →
  ∃ nc term rest pattern info,
    nc ∈ Items nodeClasses
    ∧ Spec_AMISelectorTerms nc = term :: rest
    ∧ ParseAMIName (Name term) = inr pattern
    ∧ BuildNodeClassMap nodeClasses !! Metadata_Name nc = Some info
    ∧ c = {| nodeclassName := Metadata_Name nc; oldAMI := Name term;
             newAMI := constructNewAMI info pattern d |}.
Proof.
  unfold dryRun. rewrite TrimPrefix_v, collectChanges_changes.
  intros (nc & Hin & Hc).
  destruct (collect_registered nodeClasses d nc Hin) as [E _].
  rewrite E in Hc. clear E.
  destruct (Spec_AMISelectorTerms nc) as [|term rest] eqn:Et;
    [by apply elem_of_nil in Hc|].
  destruct (ParseAMIName (Name term)) as [e|pattern] eqn:Ep;
    [by apply elem_of_nil in Hc|].
  destruct (BuildNodeClassMap nodeClasses !! Metadata_Name nc)
    as [info|] eqn:Ei; [|by apply elem_of_nil in Hc].
  apply list_elem_of_singleton in Hc.
  by exists nc, term, rest, pattern, info.
Qed.

Lemma planned_references_resolved
    (nodeClasses : NodeClassList) (d : string) (c : change) :
  is_date d = true → c ∈ (dryRun nodeClasses ("v" +:+ d)).1 →
  ∃ old new,
    ParseAMIName (oldAMI c) = inr old
    ∧ ParseAMIName (newAMI c) = inr new
    ∧ Version new = d ∧ K8sVersion new = K8sVersion old.
Proof.
  intros Hd (nc&term&rest&pattern&info&Hin&Et&Ep&Ei&->)%dryRun_change_origin.
  cbn. exists pattern.
  pose proof (parsed_pattern_well_formed _ _ Ep) as (_ & Hp & _).
  apply registry_entries in Ei
    as (nc'&term'&rest'&pattern'&_&_&_&_&Hhas&Hgroup).
  unfold constructNewAMI. destruct (NodeClassInfo.HasNodegroup info).
  - destruct Hgroup as [_ Hg]; [done|]. eexists. split; [done|].
    split; [by apply ParseAMIName_withGroup_resolved|done].
  - eexists. split; [done|].
    split; [by apply ParseAMIName_withoutGroup_resolved|done].
Qed.

(** X8. Whatever the node classes, duplicates of a name included, every
    new reference of the dry run for a date version of eight digits is a
    resolved name: it parses, its date version is the chosen one and its
    platform version is that of the old reference, which is never
    changed. *)
Theorem X8_planned_references_resolved
    (nodeClasses : NodeClassList) (d : string) (c : change) :
  is_date d = true → c ∈ (dryRun nodeClasses ("v" +:+ d)).1 →
  ∃ old new,
    ParseAMIName (oldAMI c) = inr old
    ∧ ParseAMIName (newAMI c) = inr new
    ∧ Version new = d ∧ K8sVersion new = K8sVersion old.
Proof. apply planned_references_resolved. Qed.

Lemma X8_witness :
  ∃ old new,
    ParseAMIName "domino-eks-1.33-*" = inr old
    ∧ ParseAMIName "domino-eks-1.33-v20251001" = inr new
    ∧ Version new = "20251001" ∧ K8sVersion new = K8sVersion old.
Proof.
  apply (X8_planned_references_resolved {| Items := [Examples.gpu] |}
           "20251001"
           {| nodeclassName := "domino-eks-gpu";
              oldAMI := "domino-eks-1.33-*";
              newAMI := "domino-eks-1.33-v20251001" |}).
  - reflexivity.
  - apply list_elem_of_singleton. reflexivity.
Defined.

(** X9. With unique names, the new reference of a change for a date
    version of eight digits parses to the pattern of the old reference
    with the date version replaced: the upgrade keeps the group, or its
    absence, and the platform version, and sets the date version. *)
Theorem X9_upgrade_sets_date_version_only
    (nodeClasses : NodeClassList) (d : string) (c : change) :
  NoDup (Metadata_Name <$> Items nodeClasses) →
  is_date d = true → c ∈ (dryRun nodeClasses ("v" +:+ d)).1 →
  ∃ old,
    ParseAMIName (oldAMI c) = inr old
    ∧ ParseAMIName (newAMI c)
      = inr {| HasNodegroup := HasNodegroup old; Nodegroup := Nodegroup old;
               K8sVersion := K8sVersion old; Version := d |}.
Proof.
  intros Hnd Hd
    (nc&term&rest&pattern&info&Hin&Et&Ep&Ei&->)%dryRun_change_origin.
  cbn. exists pattern. split; [done|].
  rewrite BuildNodeClassMap_lookup in Ei by done.
  destruct (register_parsed nc term rest pattern Et Ep) as (ng & E & Hng).
  rewrite E in Ei. injection Ei as <-.
  by eapply constructNewAMI_parses.
Qed.

Lemma X9_witness :
  ∃ old,
    ParseAMIName "domino-eks-1.33-*" = inr old
    ∧ ParseAMIName "domino-eks-1.33-v20251001"
      = inr {| HasNodegroup := HasNodegroup old; Nodegroup := Nodegroup old;
               K8sVersion := K8sVersion old; Version := "20251001" |}.
Proof.
  apply (X9_upgrade_sets_date_version_only {| Items := [Examples.gpu] |}
           "20251001"
           {| nodeclassName := "domino-eks-gpu";
              oldAMI := "domino-eks-1.33-*";
              newAMI := "domino-eks-1.33-v20251001" |}).
  - apply NoDup_singleton.
  - reflexivity.
  - apply list_elem_of_singleton. reflexivity.
Defined.

End PlannedReferences.

(** * Further properties of the catalogue *)

Section CatalogueProperties.

Import Regexp amis Grammar.
Implicit Types (k name v ts d : string) (ami : AMIInfo).
Implicit Types (l : list AMIInfo) (re : regexp) (o c : list string).

(** There is one entry that [latest] allows. *)
Lemma latest_unique k l v e1 e2 :
  latest k l v e1 → latest k l v e2 → e1 = e2.
Proof.
  destruct e1 as [t1|], e2 as [t2|]; cbn; try done.
  - intros [(a1&Ha1&Hv1&<-) Hmax1] [(a2&Ha2&Hv2&<-) Hmax2]. f_equal.
    apply (anti_symm String.le); auto.
  - intros [(a1&Ha1&Hv1&_) _] Hnone. by destruct (Hnone a1 Ha1).
  - intros Hnone [(a2&Ha2&Hv2&_) _]. by destruct (Hnone a2 Ha2).
Qed.

(** The map, hence the result, depends on the catalogue only through the
    date versions and the creation dates of the images that match. *)
Lemma latest_ext k l l' v e :
  (∀ ami, versionOf k (Name ami) = Some v → ami ∈ l →
          ∃ ami', ami' ∈ l' ∧ versionOf k (Name ami') = Some v
                  ∧ CreationDate ami' = CreationDate ami) →
  (∀ ami, versionOf k (Name ami) = Some v → ami ∈ l' →
          ∃ ami', ami' ∈ l ∧ versionOf k (Name ami') = Some v
                  ∧ CreationDate ami' = CreationDate ami) →
  latest k l v e → latest k l' v e.
Proof.
  intros H H'. destruct e as [ts|]; cbn.
  - intros [(a&Ha&Hv&<-) Hmax]. split.
    + destruct (H a Hv Ha) as (a'&?&?&?). eauto.
    + intros a' Ha' Hv'. destruct (H' a' Hv' Ha') as (a''&?&?&<-). auto.
  - intros Hnone a' Ha' Hv'. destruct (H' a' Hv' Ha') as (a''&?&?&_).
    by eapply Hnone.
Qed.

Lemma ExtractVersions_ext l l' k :
  (∀ v ami, versionOf k (Name ami) = Some v → ami ∈ l →
            ∃ ami', ami' ∈ l' ∧ versionOf k (Name ami') = Some v
                    ∧ CreationDate ami' = CreationDate ami) →
  (∀ v ami, versionOf k (Name ami) = Some v → ami ∈ l' →
            ∃ ami', ami' ∈ l ∧ versionOf k (Name ami') = Some v
                    ∧ CreationDate ami' = CreationDate ami) →
  ExtractVersions l k = ExtractVersions l' k.
Proof.
  intros H H'. unfold ExtractVersions.
  assert (versionSetOf l k = versionSetOf l' k) as ->; [|done].
  apply map_eq. intros v.
  eapply latest_unique; [apply versionSetOf_latest|].
  eapply latest_ext; [apply H'|apply H|apply versionSetOf_latest].
Qed.

(** X10. The result of [ExtractVersions] does not depend on the order of
    the images in the catalogue. *)
Theorem X10_catalogue_order_irrelevant
    (amis amis' : list AMIInfo) (k8sVersion : string) :
  amis ≡ₚ amis' →
  ExtractVersions amis k8sVersion = ExtractVersions amis' k8sVersion.
Proof.
  intros Hperm. apply ExtractVersions_ext.
  - intros v ami Hv Hin. exists ami. by rewrite <-Hperm.
  - intros v ami Hv Hin. exists ami. by rewrite Hperm.
Qed.

Lemma X10_witness :
  ExtractVersions
    [Examples.image "domino-eks-1.33-v20251001" "2025-10-01T00:00:00.000Z";
     Examples.image "domino-eks-gpu-1.33-v20251101" "2025-11-02T08:30:00.000Z"]
    "1.33"
  = ExtractVersions
      [Examples.image "domino-eks-gpu-1.33-v20251101" "2025-11-02T08:30:00.000Z";
       Examples.image "domino-eks-1.33-v20251001" "2025-10-01T00:00:00.000Z"]
      "1.33".
Proof.
  apply X10_catalogue_order_irrelevant. apply Permutation_swap.
Defined.

(** X11. Images whose name matches neither pattern for the platform
    version, those of other platform versions among them, have no effect:
    the result is that for the catalogue with these images taken out. *)
Theorem X11_other_images_ignored (amis : list AMIInfo) (k8sVersion : string) :
  ExtractVersions
    (filter (λ ami, is_Some (versionOf k8sVersion (Name ami))) amis) k8sVersion
  = ExtractVersions amis k8sVersion.
Proof.
  apply ExtractVersions_ext.
  - intros v ami Hv [_ Hin]%list_elem_of_filter. eauto.
  - intros v ami Hv Hin. exists ami. split_and!; [|done..].
    apply list_elem_of_filter. split; [by rewrite Hv|done].
Qed.

End CatalogueProperties.

Section AcceptedImageNames.

Import Regexp amis Grammar.
Implicit Types (k name v d x : string) (re : regexp) (o c : list string).

Lemma string_app_assoc s t u : (s +:+ t) +:+ u = s +:+ t +:+ u.
Proof. induction s as [|a s IH]; [done|]. cbn. by rewrite IH. Qed.

(** Two ways of cutting a string leave the same tail when the tails are
    as long. *)
Lemma tail_unique s1 s2 d1 d2 :
  s1 +:+ d1 = s2 +:+ d2 → String.length d1 = String.length d2 → d1 = d2.
Proof.
  revert s2. induction s1 as [|a s1 IH]; intros [|b s2]; cbn.
  - done.
  - intros -> Hlen. cbn in Hlen. rewrite string_length_app in Hlen. lia.
  - intros <- Hlen. cbn in Hlen. rewrite string_length_app in Hlen. lia.
  - intros [= _ H]. eauto.
Qed.

Lemma exec_lits_fwd l re o c s :
  exec (lits l ++ re) o c (l +:+ s) = exec re o c s.
Proof.
  induction l as [|a l IH]; [done|]. cbn. by rewrite exec_Lit.
Qed.

(** The greedy star may give bytes back: it succeeds, one way or
    another, wherever the rest of the pattern succeeds after a run of
    bytes of the class. *)
Lemma exec_Star_complete q re o c u t :
  Bytes.all q u = true → is_Some (exec re o c t) →
  is_Some (exec (Star q :: re) o c (u +:+ t)).
Proof.
  intros Hu Ht. induction u as [|a u IH].
  - cbn [String.append]. destruct t as [|a t]; [done|].
    unfold exec; fold exec. unfold exec in Ht; fold exec in Ht.
    destruct (q a); [|done]. by case_match.
  - cbn in Hu. apply andb_true_iff in Hu as [Ha Hu]. specialize (IH Hu).
    cbn [String.append]. unfold exec in *; fold exec in *.
    rewrite Ha. by destruct IH as [r ->].
Qed.

Lemma patternWithNodegroup_shape k name r :
  exec (patternWithNodegroup k) [] [] name = Some r →
  ∃ x d, is_rest x = true ∧ is_date d = true ∧ r = [d]
         ∧ name = "domino-eks-" +:+ x +:+ "-" +:+ k +:+ "-v" +:+ d.
Proof.
  unfold patternWithNodegroup, QuoteMeta.
  intros (s1 & -> & H)%exec_lits_inv.
  change ([Star dot] ++ ?re) with (Star dot :: re) in H.
  apply exec_Star_inv in H as (x & s2 & -> & Hx & H).
  apply exec_lits_inv in H as (s3 & -> & H).
  apply exec_lits_inv in H as (s4 & -> & H).
  apply exec_lits_inv in H as (d & -> & H).
  apply exec_group_date_inv in H as [Hd ->]. by exists x, d.
Qed.

Lemma patternWithNodegroup_fwd k x d :
  is_rest x = true → is_date d = true →
  exec (patternWithNodegroup k) [] []
    ("domino-eks-" +:+ x +:+ "-" +:+ k +:+ "-v" +:+ d) = Some [d].
Proof.
  intros Hx Hd.
  assert (is_Some (exec (patternWithNodegroup k) [] []
            ("domino-eks-" +:+ x +:+ "-" +:+ k +:+ "-v" +:+ d))) as [r Hr].
  { unfold patternWithNodegroup, QuoteMeta. rewrite exec_lits_fwd.
    change ([Star dot] ++ ?re) with (Star dot :: re).
    apply exec_Star_complete; [done|].
    rewrite !exec_lits_fwd, exec_group_date by done. by eexists. }
  rewrite Hr. f_equal.
  apply patternWithNodegroup_shape in Hr as (x' & d' & _ & Hd' & -> & Heq).
  f_equal. symmetry.
  apply is_date_spec in Hd as [Hlen _], Hd' as [Hlen' _].
  apply (tail_unique ("domino-eks-" +:+ x +:+ "-" +:+ k +:+ "-v")
           ("domino-eks-" +:+ x' +:+ "-" +:+ k +:+ "-v")); [|congruence].
  by rewrite !string_app_assoc.
Qed.

Lemma patternWithoutNodegroup_fwd k d :
  is_date d = true →
  exec (patternWithoutNodegroup k) [] []
    ("domino-eks-" +:+ k +:+ "-v" +:+ d) = Some [d].
Proof.
  intros Hd. unfold patternWithoutNodegroup, QuoteMeta.
  by rewrite !exec_lits_fwd, exec_group_date.
Qed.

Lemma versionOf_with k name d :
  exec (patternWithNodegroup k) [] [] name = Some [d] →
  versionOf k name = Some d.
Proof.
  intros E. unfold versionOf, matchesOf, FindStringSubmatch.
  rewrite E. reflexivity.
Qed.

Lemma versionOf_without k name :
  exec (patternWithNodegroup k) [] [] name = None →
  versionOf k name =
    match exec (patternWithoutNodegroup k) [] [] name with
    | Some [d] => Some d
    | _ => None
    end.
Proof.
  intros E. unfold versionOf, matchesOf, FindStringSubmatch. rewrite E.
  destruct (decide (length (A:=string) [] ≠ 2)) as [_|H]; [|by destruct H].
  destruct (exec (patternWithoutNodegroup k) [] [] name) as [r|] eqn:E2;
    [|done].
  apply patternWithoutNodegroup_inv in E2 as (d & _ & -> & _). reflexivity.
Qed.

Lemma versionOf_iff k name d :
  versionOf k name = Some d ↔
  is_date d = true
  ∧ (name = "domino-eks-" +:+ k +:+ "-v" +:+ d
     ∨ ∃ x, is_rest x = true
            ∧ name = "domino-eks-" +:+ x +:+ "-" +:+ k +:+ "-v" +:+ d).
Proof.
  split.
  - destruct (exec (patternWithNodegroup k) [] [] name) as [r|] eqn:E1.
    { apply patternWithNodegroup_shape in E1 as E; destruct E
        as (x & d' & Hx & Hd & -> & ->).
      rewrite (versionOf_with _ _ _ E1). intros [= <-]. eauto. }
    rewrite (versionOf_without _ _ E1).
    destruct (exec (patternWithoutNodegroup k) [] [] name) as [r|] eqn:E2;
      [|done].
    apply patternWithoutNodegroup_inv in E2 as (d' & Hd & -> & ->).
    intros [= <-]. eauto.
  - intros [Hd [->|(x & Hx & ->)]].
    + destruct (exec (patternWithNodegroup k) [] []
                  ("domino-eks-" +:+ k +:+ "-v" +:+ d)) as [r|] eqn:E1.
      * apply patternWithNodegroup_shape in E1 as E; destruct E
          as (x & d' & _ & Hd' & -> & Heq).
        rewrite (versionOf_with _ _ _ E1). f_equal. symmetry.
        apply is_date_spec in Hd as [Hlen _], Hd' as [Hlen' _].
        apply (tail_unique ("domino-eks-" +:+ k +:+ "-v")
                 ("domino-eks-" +:+ x +:+ "-" +:+ k +:+ "-v"));
          [|congruence].
        by rewrite !string_app_assoc.
      * rewrite (versionOf_without _ _ E1).
        by rewrite patternWithoutNodegroup_fwd.
    + apply versionOf_with. by apply patternWithNodegroup_fwd.
Qed.

(** X12. The image names that [ExtractVersions] counts for a platform
    version [k] in ASCII, of 1000 bytes at most, with the date version
    read from each: the names [domino-eks-<k>-v<d>] and the names
    [domino-eks-<x>-<k>-v<d>], where [d] has eight digits and [x] is any
    text without newline, be it empty or with hyphens in it.  No other
    name is counted. *)
Theorem X12_counted_image_names (k8sVersion name d : string) :
  Derived.plain k8sVersion = true →
  versionOf k8sVersion name = Some d ↔
  is_date d = true
  ∧ (name = "domino-eks-" +:+ k8sVersion +:+ "-v" +:+ d
     ∨ ∃ x, is_rest x = true
            ∧ name = "domino-eks-" +:+ x +:+ "-" +:+ k8sVersion
                       +:+ "-v" +:+ d).
Proof. intros _. apply versionOf_iff. Qed.

Lemma X12_witness :
  Derived.plain "1.33" = true
  ∧ (versionOf "1.33" "domino-eks-gpu-small-1.33-v20251001" = Some "20251001"
     ↔ is_date "20251001" = true
       ∧ ("domino-eks-gpu-small-1.33-v20251001"
          = "domino-eks-" +:+ "1.33" +:+ "-v" +:+ "20251001"
          ∨ ∃ x, is_rest x = true
                 ∧ "domino-eks-gpu-small-1.33-v20251001"
                   = "domino-eks-" +:+ x +:+ "-" +:+ "1.33"
                       +:+ "-v" +:+ "20251001")).
Proof.
  split; [reflexivity|].
  apply (X12_counted_image_names "1.33"
           "domino-eks-gpu-small-1.33-v20251001" "20251001").
  reflexivity.
Defined.

End AcceptedImageNames.

(** * [ParseDate] on well-formed timestamps *)

Section DateProperties.


Import time amis Derived.
Implicit Types (s t u : string) (a : ascii) (n w : nat).

Lemma digit_char a :
  Bytes.is_digit a = true →
  digit_val a < 10 ∧ ascii_of_nat (48 + digit_val a) = a.
Proof.
  destruct a as [[] [] [] [] [] [] [] []]; intros H;
    vm_compute in H; try discriminate H;
    (split; [apply Nat.ltb_lt|]; reflexivity).
Qed.

Lemma char_digit n : n < 10 → Bytes.is_digit (ascii_of_nat (48 + n)) = true.
Proof. intros H. do 10 (destruct n as [|n]; [done|]). lia. Qed.

Lemma pad_length w n : String.length (pad w n) = w.
Proof.
  revert n. induction w as [|w IH]; intros n; [done|].
  cbn [pad]. rewrite string_length_app, IH. cbn. lia.
Qed.

Lemma all_app q s t :
  Bytes.all q (s +:+ t) = Bytes.all q s && Bytes.all q t.
Proof.
  induction s as [|a s IH]; [done|]. cbn. rewrite IH. by destruct (q a).
Qed.

Lemma pad_digits w n : Bytes.all Bytes.is_digit (pad w n) = true.
Proof.
  revert n. induction w as [|w IH]; intros n; [done|].
  cbn [pad]. rewrite all_app, IH. cbn [Bytes.all andb].
  rewrite char_digit; [done|]. apply Nat.mod_upper_bound. lia.
Qed.

Lemma number_snoc s a : number (s +:+ String a "") = 10 * number s + digit_val a.
Proof.
  unfold number.
  assert (list_ascii_of_string (s +:+ String a "")
          = list_ascii_of_string s ++ [a]) as ->.
  { induction s as [|b s IH]; [done|]. cbn. by rewrite IH. }
  by rewrite foldl_app.
Qed.

(** A string is empty or ends with a byte. *)
Lemma string_snoc_ind (P : string → Prop) :
  P "" → (∀ s a, P s → P (s +:+ String a "")) → ∀ s, P s.
Proof.
  intros H0 Hs s.
  rewrite <-(string_of_list_ascii_of_string s).
  induction (list_ascii_of_string s) as [|a l IH] using rev_ind; [done|].
  assert (string_of_list_ascii (l ++ [a])
          = string_of_list_ascii l +:+ String a "") as ->; [|by apply Hs].
  clear. induction l as [|b l IH]; [done|]. cbn. by rewrite IH.
Qed.

(** Writing the value of a string of digits on as many digits gives the
    string back. *)
Lemma pad_number s :
  Bytes.all Bytes.is_digit s = true → pad (String.length s) (number s) = s.
Proof.
  induction s as [|s a IH] using string_snoc_ind; [done|].
  rewrite all_app, andb_true_iff. cbn. rewrite andb_true_r.
  intros [Hs [Ha Hchr]%digit_char].
  rewrite string_length_app, number_snoc. cbn [String.length].
  rewrite Nat.add_1_r. cbn [pad].
  replace ((10 * number s + digit_val a) / 10) with (number s).
  2:{ rewrite Nat.mul_comm, Nat.div_add_l by lia.
      rewrite Nat.div_small by lia. lia. }
  replace ((10 * number s + digit_val a) mod 10) with (digit_val a).
  2:{ rewrite Nat.add_comm, Nat.mul_comm, Nat.Div0.mod_add.
      by rewrite Nat.mod_small. }
  by rewrite IH, Hchr.
Qed.


Lemma digits_spec n s :
  digits n s = true ↔ String.length s = n ∧ Bytes.all Bytes.is_digit s = true.
Proof. unfold digits. by rewrite andb_true_iff, Nat.eqb_eq. Qed.

Lemma pad_digits_number n s : digits n s = true → pad n (number s) = s.
Proof. intros [<- H]%digits_spec. by apply pad_number. Qed.

Lemma take_app_digits n s t : digits n s = true → Bytes.take n (s +:+ t) = s.
Proof. intros [<- _]%digits_spec. apply string_take_app. Qed.

Lemma string_drop_app s t : Bytes.drop (String.length s) (s +:+ t) = t.
Proof. induction s as [|a s IH]; [by destruct t|]. done. Qed.

Lemma drop_app_digits n s t : digits n s = true → Bytes.drop n (s +:+ t) = t.
Proof. intros [<- _]%digits_spec. apply string_drop_app. Qed.

#[local] Arguments number : simpl never.
#[local] Arguments pad : simpl never.

Lemma getnum_two s t fixed :
  digits 2 s = true → getnum (s +:+ t) fixed = Some (number s, t).
Proof.
  intros [Hl Hd]%digits_spec.
  destruct s as [|a [|b [|??]]]; try done. cbn in Hd.
  apply andb_true_iff in Hd as [Ha Hb]. rewrite andb_true_r in Hb.
  unfold getnum, isDigit. cbn. rewrite Ha, Hb. cbn. by destruct t.
Qed.

Lemma atoi_digits s :
  s ≠ "" → Bytes.all Bytes.is_digit s = true →
  atoi s = Some (Z.of_nat (number s)).
Proof.
  destruct s as [|a s]; [done|]. intros _. cbn.
  intros [Ha Hs]%andb_true_iff.
  destruct a as [[] [] [] [] [] [] [] []]; vm_compute in Ha;
    try discriminate Ha; unfold atoi; cbn; by rewrite Hs.
Qed.


Ltac step := cbn -[Nat.leb Nat.ltb Nat.eqb Z.ltb Z.mul Z.of_nat].

Lemma isDigit_app_0 n s t : digits (S n) s = true → isDigit (s +:+ t) 0 = true.
Proof.
  intros [Hl Hd]%digits_spec. destruct s as [|a s]; [done|].
  cbn in Hd. apply andb_true_iff in Hd as [Ha _]. done.
Qed.

Lemma Parse_timestamp Y M D h m s f :
  digits 4 Y = true → digits 2 M = true → digits 2 D = true →
  digits 2 h = true → digits 2 m = true → digits 2 s = true →
  digits 3 f = true →
  1 ≤ number M ≤ 12 → 1 ≤ number D ≤ daysIn (number M) (number Y) →
  number h < 24 → number m < 60 → number s < 60 →
  Parse (Y +:+ "-" +:+ M +:+ "-" +:+ D +:+ "T" +:+ h +:+ ":" +:+ m +:+ ":"
           +:+ s +:+ "." +:+ f +:+ "Z")
  = Some {| year := number Y; month := number M; day := number D;
            hour := number h; min := number m; sec := number s;
            nsec := (Z.of_nat (number f) * 1000000)%Z |}.
Proof.
  intros HY HM HD Hh Hm Hs Hf HMr HDr Hhr Hmr Hsr. unfold Parse.
  rewrite (isDigit_app_0 _ _ _ HY), (take_app_digits _ _ _ HY),
    (drop_app_digits _ _ _ HY), string_length_app.
  apply digits_spec in HY as HY'. destruct HY' as [-> ->].
  rewrite (proj2 (Nat.leb_le 4 _)) by lia. step.
  rewrite (getnum_two _ _ _ HM). step.
  rewrite (proj2 (Nat.eqb_neq _ _)), (proj2 (Nat.ltb_ge _ _)) by lia. step.
  rewrite (getnum_two _ _ _ HD). step.
  rewrite (getnum_two _ _ _ Hh). step.
  rewrite (proj2 (Nat.leb_gt _ _)) by lia. step.
  rewrite (getnum_two _ _ _ Hm). step.
  rewrite (proj2 (Nat.leb_gt _ _)) by lia. step.
  rewrite (getnum_two _ _ _ Hs). step.
  rewrite (proj2 (Nat.leb_gt _ _)) by lia.
  apply digits_spec in Hf as [Hfl Hfd].
  destruct f as [|a [|b [|c [|??]]]]; try done.
  step. rewrite atoi_digits by done. step.
  rewrite (proj2 (Z.ltb_ge _ _)) by lia.
  rewrite !(proj2 (Nat.ltb_ge _ _)) by lia.
  done.
Qed.


Lemma ParseDate_timestamp Y M D h m s f :
  digits 4 Y = true → digits 2 M = true → digits 2 D = true →
  digits 2 h = true → digits 2 m = true → digits 2 s = true →
  digits 3 f = true →
  1 ≤ number M ≤ 12 → 1 ≤ number D ≤ daysIn (number M) (number Y) →
  number h < 24 → number m < 60 → number s < 60 →
  ParseDate (Y +:+ "-" +:+ M +:+ "-" +:+ D +:+ "T" +:+ h +:+ ":" +:+ m
               +:+ ":" +:+ s +:+ "." +:+ f +:+ "Z")
  = Y +:+ "-" +:+ M +:+ "-" +:+ D +:+ " " +:+ h +:+ ":" +:+ m.
Proof.
  intros HY HM HD Hh Hm Hs Hf HMr HDr Hhr Hmr Hsr. unfold ParseDate.
  rewrite Parse_timestamp by done. unfold Format. cbn [year month day hour min].
  by rewrite !pad_digits_number.
Qed.

Lemma digits_pad w n : digits w (pad w n) = true.
Proof. apply digits_spec. split; [apply pad_length|apply pad_digits]. Qed.

Lemma getnum_fixed s n r : getnum s true = Some (n, r) → r = Bytes.drop 2 s.
Proof.
  unfold getnum. destruct (negb (isDigit s 0)); [done|].
  destruct (negb (isDigit s 1)); [done|]. by intros [= _ <-].
Qed.

(** What [Format] writes does not parse as a timestamp: a space stands
    where the layout has [T]. *)
Lemma Parse_Format (tm : Time) : Parse (Format tm) = None.
Proof.
  unfold Parse, Format.
  destruct (negb _); [done|].
  rewrite (take_app_digits _ _ _ (digits_pad 4 _)),
    (drop_app_digits _ _ _ (digits_pad 4 _)).
  destruct (negb _); [done|]. step.
  destruct (getnum _ true) as [[mo v]|] eqn:E; [|done].
  apply getnum_fixed in E.
  rewrite (drop_app_digits _ _ _ (digits_pad 2 _)) in E. subst v. step.
  destruct (_ || _); [done|]. step.
  destruct (getnum _ true) as [[d v]|] eqn:E; [|done].
  apply getnum_fixed in E.
  rewrite (drop_app_digits _ _ _ (digits_pad 2 _)) in E. by subst v.
Qed.

Lemma ParseDate_idempotent dateStr :
  ParseDate (ParseDate dateStr) = ParseDate dateStr.
Proof.
  unfold ParseDate at 2 3.
  destruct (Parse dateStr) as [tm|] eqn:E.
  - unfold ParseDate. by rewrite Parse_Format.
  - unfold ParseDate. by rewrite E.
Qed.

(** X13. A creation timestamp [YYYY-MM-DDThh:mm:ss.fffZ] whose fields are
    digits in range (a month from 1 to 12, a day that the month has in that
    year, an hour below 24, minutes and seconds below 60) is shown by
    [ParseDate] as [YYYY-MM-DD hh:mm]: the same digits, a space for the
    [T], seconds, milliseconds and [Z] dropped. *)
Theorem X13_ParseDate_reformats_timestamp Y M D h m s f :
  digits 4 Y = true → digits 2 M = true → digits 2 D = true →
  digits 2 h = true → digits 2 m = true → digits 2 s = true →
  digits 3 f = true →
  1 ≤ number M ≤ 12 → 1 ≤ number D ≤ daysIn (number M) (number Y) →
  number h < 24 → number m < 60 → number s < 60 →
  ParseDate (Y +:+ "-" +:+ M +:+ "-" +:+ D +:+ "T" +:+ h +:+ ":" +:+ m
               +:+ ":" +:+ s +:+ "." +:+ f +:+ "Z")
  = Y +:+ "-" +:+ M +:+ "-" +:+ D +:+ " " +:+ h +:+ ":" +:+ m.
Proof. apply ParseDate_timestamp. Qed.

Lemma X13_witness :
  ParseDate "2024-02-29T23:59:58.123Z" = "2024-02-29 23:59".
Proof.
  apply (X13_ParseDate_reformats_timestamp
           "2024" "02" "29" "23" "59" "58" "123");
    try reflexivity; vm_compute; lia.
Defined.

(** X14. [ParseDate] is idempotent: what it returns, it returns
    unchanged, since the text that [Format] writes is no timestamp of the
    layout. *)
Theorem X14_ParseDate_idempotent dateStr :
  ParseDate (ParseDate dateStr) = ParseDate dateStr.
Proof. apply ParseDate_idempotent. Qed.

End DateProperties.

(** * The start of [main] *)

Section StartProperties.

Import nodeclasses Grammar Derived program.

Lemma is_platform_nonempty p : is_platform p = true → p ≠ "".
Proof. by destruct p. Qed.

Lemma parsed_None_nil nc : Spec_AMISelectorTerms nc = [] → parsed nc = None.
Proof. unfold parsed, image. by intros ->. Qed.

Lemma parsed_cons nc term terms :
  Spec_AMISelectorTerms nc = term :: terms →
  parsed nc = match ParseAMIName (Name term) with
              | inr pattern => Some pattern
              | inl _ => None
              end.
Proof. unfold parsed, image. by intros ->. Qed.

Lemma parsed_platform nc pattern :
  parsed nc = Some pattern → is_platform (K8sVersion pattern) = true.
Proof.
  unfold parsed. destruct (image nc) as [amiName|]; [|done].
  destruct (ParseAMIName amiName) as [|p] eqn:E; [done|]. intros [= <-].
  by apply parsed_pattern_well_formed in E as (_ & H & _).
Qed.

Lemma parsed_version_nonempty nc pattern :
  parsed nc = Some pattern → K8sVersion pattern ≠ "".
Proof. intros H%parsed_platform. by apply is_platform_nonempty. Qed.

(** The detected version is that of the first node class whose image
    reference parses. *)
Lemma detectK8sVersion_first items :
  (detectK8sVersion items = "" ∧ ∀ nc, nc ∈ items → parsed nc = None)
  ∨ ∃ before nc after pattern,
      items = before ++ nc :: after
      ∧ (∀ nc', nc' ∈ before → parsed nc' = None)
      ∧ parsed nc = Some pattern
      ∧ detectK8sVersion items = K8sVersion pattern.
Proof.
  induction items as [|nc items IH].
  { left. split; [done|]. by intros nc ?%elem_of_nil. }
  cbn [detectK8sVersion].
  assert (parsed nc = None →
          (detectK8sVersion items = "" ∧
           ∀ nc', nc' ∈ nc :: items → parsed nc' = None)
          ∨ ∃ before nc' after pattern,
              nc :: items = before ++ nc' :: after
              ∧ (∀ nc'', nc'' ∈ before → parsed nc'' = None)
              ∧ parsed nc' = Some pattern
              ∧ detectK8sVersion items = K8sVersion pattern) as Hskip.
  { intros Hnc. destruct IH as [[E H]|(before & nc' & after & p & -> & H & Hp & E)].
    - left. split; [done|]. intros nc' [->|?]%elem_of_cons; auto.
    - right. exists (nc :: before), nc', after, p. repeat split; try done.
      intros nc'' [->|?]%elem_of_cons; auto. }
  destruct (Spec_AMISelectorTerms nc) as [|term terms] eqn:Eterms.
  { apply Hskip. by apply parsed_None_nil. }
  pose proof (parsed_cons _ _ _ Eterms) as Hp.
  destruct (ParseAMIName (Name term)) as [|pattern]; [by apply Hskip|].
  right. exists [], nc, items, pattern. repeat split; try done.
  by intros nc' ?%elem_of_nil.
Qed.

Lemma detectK8sVersion_empty items :
  detectK8sVersion items = "" ↔ ∀ nc, nc ∈ items → parsed nc = None.
Proof.
  destruct (detectK8sVersion_first items)
    as [[E H]|(before & nc & after & p & -> & H & Hp & E)]; [done|].
  rewrite E. split.
  - intros Hk. by apply parsed_version_nonempty in Hp.
  - intros Hall. rewrite Hall in Hp; [done|]. set_solver.
Qed.

(** X15. [main] stops with the message that the platform version could
    not be determined exactly when there are node classes and none of them
    has an image reference that parses. *)
Theorem X15_no_version_iff_nothing_parses (nodeClasses : NodeClassList) :
  start nodeClasses = ExitNoVersion ↔
  Items nodeClasses ≠ []
  ∧ ∀ nc, nc ∈ Items nodeClasses → parsed nc = None.
Proof.
  unfold start. rewrite <-detectK8sVersion_empty.
  destruct (Items nodeClasses) as [|nc items] eqn:E; [by split; [|intros []]|].
  cbn [length]. destruct (decide (S (length items) = 0)); [done|].
  destruct (decide (detectK8sVersion (nc :: items) = "")); [done|].
  split; [|by intros [_ ?]]. by destruct (Spec_AMISelectorTerms nc).
Qed.

(** X16. [main] panics at [nodeClasses.Items[0].Spec.AMISelectorTerms[0]]
    exactly when the first node class has no selector term while a later
    one has an image reference that parses; it is an index out of
    range. *)
Theorem X16_owner_lookup_panics_iff (nodeClasses : NodeClassList) cause :
  start nodeClasses = StartPanics cause ↔
  cause = IndexOutOfRange
  ∧ (∃ nc rest,
       Items nodeClasses = nc :: rest ∧ Spec_AMISelectorTerms nc = []
       ∧ ∃ nc', nc' ∈ rest ∧ is_Some (parsed nc')).
Proof.
  unfold start.
  destruct (Items nodeClasses) as [|nc items] eqn:E.
  { split; [done|]. by intros (_ & ? & ? & ? & _). }
  cbn [length]. destruct (decide (S (length items) = 0)); [done|].
  destruct (decide (detectK8sVersion (nc :: items) = "")) as [Hk|Hk].
  - split; [done|]. intros (_ & nc0 & rest & [= <- <-] & _ & nc' & Hin & Hp).
    rewrite detectK8sVersion_empty in Hk.
    rewrite Hk in Hp; [by destruct Hp|]. set_solver.
  - destruct (Spec_AMISelectorTerms nc) as [|term terms] eqn:Eterms.
    + split.
      * intros [= <-]. split; [done|]. exists nc, items. repeat split; try done.
        destruct (detectK8sVersion_first (nc :: items))
          as [[E' _]|(before & nc0 & after & p & Hsplit & _ & Hp & _)];
          [done|].
        destruct before as [|b before]; simplify_eq/=.
        -- by rewrite parsed_None_nil in Hp.
        -- exists nc0. split; [set_solver|]. by rewrite Hp.
      * by intros [-> _].
    + split; [done|]. intros (_ & nc0 & rest & [= <- <-] & Hnil & _).
      by rewrite Hnil in Eterms.
Qed.

(** X17. When [main] gets as far as the catalogue, the platform version
    it has detected has the form [1.N] and is that of the first node class
    whose image reference parses, while the owner is that of the first
    selector term of the first node class, parsed or not. *)
Theorem X17_detected_version_and_owner (nodeClasses : NodeClassList)
    k8sVersion ownerID :
  start nodeClasses = Detected k8sVersion ownerID →
  is_platform k8sVersion = true
  ∧ (∃ before nc after pattern,
       Items nodeClasses = before ++ nc :: after
       ∧ (∀ nc', nc' ∈ before → parsed nc' = None)
       ∧ parsed nc = Some pattern
       ∧ K8sVersion pattern = k8sVersion)
  ∧ (∃ nc rest term terms,
       Items nodeClasses = nc :: rest
       ∧ Spec_AMISelectorTerms nc = term :: terms
       ∧ Owner term = ownerID).
Proof.
  unfold start.
  destruct (decide (length (Items nodeClasses) = 0)); [done|].
  destruct (decide (detectK8sVersion (Items nodeClasses) = "")) as [|Hk];
    [done|].
  destruct (detectK8sVersion_first (Items nodeClasses))
    as [[E _]|(before & nc & after & p & Hsplit & Hbefore & Hp & Ek)];
    [done|].
  cbv zeta. rewrite Ek.
  destruct (Items nodeClasses) as [|nc0 items]; [done|].
  destruct (Spec_AMISelectorTerms nc0) as [|term terms] eqn:Eterms; [done|].
  intros [= <- <-]. split; [by eapply parsed_platform|].
  split; [by exists before, nc, after, p|].
  by exists nc0, items, term, terms.
Qed.

Lemma X17_witness :
  is_platform "1.33" = true
  ∧ (∃ before nc after pattern,
       [Examples.nodeClass "legacy" "ami-0abc"; Examples.gpu]
       = before ++ nc :: after
       ∧ (∀ nc', nc' ∈ before → parsed nc' = None)
       ∧ parsed nc = Some pattern
       ∧ K8sVersion pattern = "1.33")
  ∧ (∃ nc rest term terms,
       [Examples.nodeClass "legacy" "ami-0abc"; Examples.gpu] = nc :: rest
       ∧ Spec_AMISelectorTerms nc = term :: terms
       ∧ Owner term = "123456789012").
Proof.
  apply (X17_detected_version_and_owner
           {| Items := [Examples.nodeClass "legacy" "ami-0abc";
                        Examples.gpu] |} "1.33" "123456789012").
  reflexivity.
Defined.

End StartProperties.

(** * The list of versions and the selection *)

Section SelectionProperties.

Import amis program.

(** X18. From the list to the plan: on a model that is not quitting,
    [ctrl+c] cancels; [enter] on the first entry of the list starts the
    monitor; [enter] on the entry made from a version item leads to the dry
    run, with the version of that item as the date version, whatever the
    version is; [enter] on an empty list leaves the choice as it was. *)
Theorem X18_selection_round_trip (versionItems : list VersionItem)
    (m : model) :
  quitting m = false →
  afterSelection (Update m CtrlC) = Cancelled
  ∧ (∃ i, items versionItems !! 0 = Some i
          ∧ afterSelection (Update m (Enter (Some i))) = Monitor)
  ∧ (∀ n vi, versionItems !! n = Some vi →
       ∃ i, items versionItems !! S n = Some i
            ∧ afterSelection (Update m (Enter (Some i)))
              = Plan ("v" +:+ Version vi) (Version vi))
  ∧ afterSelection (Update m (Enter None)) = afterSelection m.
Proof.
  intros Hq. split; [done|]. split; [|split; [|done]].
  - eexists. split; [done|]. unfold afterSelection. cbn. by rewrite Hq.
  - intros n vi Hn. eexists. split.
    { unfold items. rewrite lookup_cons_ne_0 by done. cbn [pred].
      by rewrite list_lookup_fmap, Hn. }
    unfold afterSelection. cbn. rewrite Hq.
    destruct (decide _) as [|_]; [done|].
    by destruct (decide _) as [|_].
Qed.

Lemma X18_witness :
  afterSelection (Update {| choice := ""; quitting := false |} CtrlC)
  = Cancelled
  ∧ (∃ i, items [{| Version := "20251001"; Date := "2025-10-01 00:00" |}]
            !! 0 = Some i
          ∧ afterSelection
              (Update {| choice := ""; quitting := false |} (Enter (Some i)))
            = Monitor)
  ∧ (∀ n vi,
       [{| Version := "20251001"; Date := "2025-10-01 00:00" |}] !! n
       = Some vi →
       ∃ i, items [{| Version := "20251001"; Date := "2025-10-01 00:00" |}]
              !! S n = Some i
            ∧ afterSelection
                (Update {| choice := ""; quitting := false |}
                   (Enter (Some i)))
              = Plan ("v" +:+ Version vi) (Version vi))
  ∧ afterSelection
      (Update {| choice := ""; quitting := false |} (Enter None))
    = afterSelection {| choice := ""; quitting := false |}.
Proof.
  apply (X18_selection_round_trip
           [{| Version := "20251001"; Date := "2025-10-01 00:00" |}]
           {| choice := ""; quitting := false |}).
  reflexivity.
Defined.

End SelectionProperties.

(** * [UpdateNodeClass]: when it panics and what it applies *)

Section UpdateProperties.

Import nodeclasses.

Variable kubectl_get : string → error + string.
Variable Unmarshal : string → error + json.value.
Variable Marshal : json.value → error + string.
Variable kubectl_apply : string → option error.

(** The ways to the first selector term of a decoded node class: the
    panic, or the maps and the list on the way. *)
Lemma UpdateNodeClass_path (nodeclass : gmap string json.value) :
  (assert_map (nodeclass !! "spec") = inl InterfaceConversion
   ∧ ∀ spec, nodeclass !! "spec" ≠ Some (json.Object spec))
  ∨ ∃ spec,
      nodeclass !! "spec" = Some (json.Object spec)
      ∧ ((assert_slice (spec !! "amiSelectorTerms") = inl InterfaceConversion
          ∧ ∀ l, spec !! "amiSelectorTerms" ≠ Some (json.Array l))
         ∨ spec !! "amiSelectorTerms" = Some (json.Array [])
         ∨ (∃ first others,
              spec !! "amiSelectorTerms" = Some (json.Array (first :: others))
              ∧ ∀ term, first ≠ json.Object term)
         ∨ ∃ term others,
             spec !! "amiSelectorTerms"
             = Some (json.Array (json.Object term :: others))).
Proof.
  destruct (nodeclass !! "spec") as [[| | | | |spec]|];
    try (by left). right. exists spec. split; [done|].
  destruct (spec !! "amiSelectorTerms") as [[| | | |[|first others]|]|];
    try (by left); [by right; left|].
  right; right. destruct first as [| | | | |term];
    try (by left; eexists _, _); right; by eexists _, _.
Qed.

(** X19. [UpdateNodeClass] panics exactly when the node class was fetched
    and decoded and the way to [spec.amiSelectorTerms[0]] breaks off:
    [spec] is no object, or [amiSelectorTerms] is no list, or the list is
    empty (an index out of range; a failed type assertion in the other
    cases), or its first element is no object.  A node class with a first
    selector term never makes it panic. *)
Theorem X19_update_panics_iff (name newAMI : string) (cause : panic) :
  UpdateNodeClass kubectl_get Unmarshal Marshal kubectl_apply name newAMI
  = Panics cause ↔
  ∃ output nodeclass,
    kubectl_get name = inr output
    ∧ unmarshal_map Unmarshal output = inr nodeclass
    ∧ ((cause = InterfaceConversion
        ∧ ∀ spec, nodeclass !! "spec" ≠ Some (json.Object spec))
       ∨ ∃ spec,
           nodeclass !! "spec" = Some (json.Object spec)
           ∧ ((cause = InterfaceConversion
               ∧ ∀ l, spec !! "amiSelectorTerms" ≠ Some (json.Array l))
              ∨ (cause = IndexOutOfRange
                 ∧ spec !! "amiSelectorTerms" = Some (json.Array []))
              ∨ (cause = InterfaceConversion
                 ∧ ∃ first others,
                     spec !! "amiSelectorTerms"
                     = Some (json.Array (first :: others))
                     ∧ ∀ term, first ≠ json.Object term))).
Proof.
  unfold UpdateNodeClass.
  destruct (kubectl_get name) as [e|output].
  { split; [done|]. by intros (? & ? & ? & _). }
  destruct (unmarshal_map Unmarshal output) as [e|nodeclass] eqn:Edec.
  { split; [done|]. intros (? & ? & [= <-] & H & _). by rewrite Edec in H. }
  split.
  - intros H. exists output, nodeclass. split; [done|]. split; [done|].
    revert H.
    destruct (UpdateNodeClass_path nodeclass)
      as [[E Hspec]|(spec & Espec & [[E Hl]|[El|[(first & others & El & Hf)
         |(term & others & El)]]])].
    + rewrite E. intros [= <-]. by left.
    + rewrite Espec. cbn. rewrite E. intros [= <-].
      right. exists spec. split; [done|]. by left.
    + rewrite Espec. cbn. rewrite El. cbn. intros [= <-].
      right. exists spec. split; [done|]. right. by left.
    + rewrite Espec. cbn. rewrite El. cbn.
      destruct first as [| | | | |term]; [..|by destruct (Hf term)];
        (intros [= <-]; right; exists spec; split; [done|]; right; right;
         split; [done|]; by eexists _, _).
    + rewrite Espec. cbn. rewrite El. cbn. by repeat case_match.
  - intros (o & n & [= <-] & Hd & H). rewrite Edec in Hd. injection Hd as <-.
    destruct H as [[-> Hs]|(spec & -> & [[-> Hl]|[[-> El]
                  |(-> & first & others & El & Hf)]])]; cbn.
    + destruct (nodeclass !! "spec") as [[| | | | |spec]|]; try done.
      by destruct (Hs spec).
    + destruct (spec !! "amiSelectorTerms") as [[| | | |l|]|];
        try done. by destruct (Hl l).
    + by rewrite El.
    + rewrite El. cbn.
      destruct first as [| | | | |term]; try done. by destruct (Hf term).
Qed.

(** A map is an insertion into another when it has the value at the key
    and agrees with the other map elsewhere. *)
Lemma insert_characterised (k : string) (v : json.value)
    (m m' : gmap string json.value) :
  m' = <[k := v]> m ↔ m' !! k = Some v ∧ ∀ j, j ≠ k → m' !! j = m !! j.
Proof.
  split.
  - intros ->. split; [by rewrite lookup_insert_eq|].
    intros j Hj. by rewrite lookup_insert_ne.
  - intros [Hk Hj]. apply map_eq. intros j. destruct (decide (j = k)) as [->|].
    + by rewrite lookup_insert_eq.
    + rewrite lookup_insert_ne by done. auto.
Qed.

(** X20. [UpdateNodeClass] returns [nil] exactly when the node class is
    fetched and decoded, has a first selector term, and the document that
    is encoded and applied without error is the fetched one with the
    [name] of that term set to the new image reference: every other field
    of the term, every other selector term, every other field of [spec]
    and of the node class is as it was fetched. *)
Theorem X20_update_sets_name_only (name newAMI : string) :
  UpdateNodeClass kubectl_get Unmarshal Marshal kubectl_apply name newAMI
  = Returns None ↔
  ∃ output nodeclass spec term others nodeclass' spec' term' updatedJSON,
    kubectl_get name = inr output
    ∧ unmarshal_map Unmarshal output = inr nodeclass
    ∧ nodeclass !! "spec" = Some (json.Object spec)
    ∧ spec !! "amiSelectorTerms"
      = Some (json.Array (json.Object term :: others))
    ∧ Marshal (json.Object nodeclass') = inr updatedJSON
    ∧ kubectl_apply updatedJSON = None
    ∧ (nodeclass' !! "spec" = Some (json.Object spec')
       ∧ ∀ k, k ≠ "spec" → nodeclass' !! k = nodeclass !! k)
    ∧ (spec' !! "amiSelectorTerms"
       = Some (json.Array (json.Object term' :: others))
       ∧ ∀ k, k ≠ "amiSelectorTerms" → spec' !! k = spec !! k)
    ∧ (term' !! "name" = Some (json.Str newAMI)
       ∧ ∀ k, k ≠ "name" → term' !! k = term !! k).
Proof.
  unfold UpdateNodeClass. split.
  - destruct (kubectl_get name) as [e|output]; [done|].
    destruct (unmarshal_map Unmarshal output) as [e|nodeclass] eqn:Edec;
      [done|].
    destruct (UpdateNodeClass_path nodeclass)
      as [[E Hspec]|(spec & Espec & [[E Hl]|[El|[(first & others & El & Hf)
         |(term & others & El)]]])].
    + by rewrite E.
    + rewrite Espec. cbn. by rewrite E.
    + rewrite Espec. cbn. by rewrite El.
    + rewrite Espec. cbn. rewrite El. cbn.
      destruct first as [| | | | |term]; try done. by destruct (Hf term).
    + rewrite Espec. cbn. rewrite El. cbn.
      destruct (Marshal _) as [e|updatedJSON] eqn:Em; [done|].
      destruct (kubectl_apply updatedJSON) eqn:Ea; [done|]. intros _.
      eexists output, nodeclass, spec, term, others, _, _, _, updatedJSON.
      do 4 (split; [done|]). split; [exact Em|]. split; [done|].
      split; [by apply insert_characterised|].
      split; by apply insert_characterised.
  - intros (output & nodeclass & spec & term & others & nodeclass' & spec'
            & term' & updatedJSON & -> & -> & -> & Hl & Em & Ea
            & ->%insert_characterised & ->%insert_characterised
            & ->%insert_characterised).
    cbn. rewrite Hl. cbn. by rewrite Em, Ea.
Qed.

End UpdateProperties.

(** * The status screen of the monitor *)

Section StatusProperties.

Import nodeclasses main.

(** The loop over the statuses prints three lines for each of them and
    counts those that are drifted. *)
Lemma foldl_showStatus statuses out n :
  ∃ body,
    foldl showStatus (out, n) statuses
    = (out ++ body,
       n + length (filter (λ status, NodeClaimStatus.Drifted status = true)
                     statuses))
    ∧ length body = 3 * length statuses
    ∧ Forall (λ l, match l with
                   | StatusOf _ _ _ _ | StatusText _ | Blank => True
                   | _ => False
                   end) body.
Proof.
  revert out n. induction statuses as [|status statuses IH]; intros out n.
  { exists []. by rewrite app_nil_r, Nat.add_0_r. }
  cbn [foldl]. unfold showStatus at 2.
  edestruct IH as (body & -> & Hlen & Hbody).
  eexists (_ :: _ :: _ :: body). split; [|split].
  - rewrite <-app_assoc. cbn [app]. f_equal.
    rewrite filter_cons. destruct (NodeClaimStatus.Drifted status).
    + rewrite decide_True by done. cbn [length]. lia.
    + by rewrite decide_False by done.
  - cbn [length]. lia.
  - by repeat constructor.
Qed.

(** X21. When there are node claims, the screen is the three lines of the
    header, three lines for each node claim, a rule, one summary line and
    the hint; the summary line gives the number of drifted node claims out
    of the total when at least one is drifted, and says that all are
    undrifted otherwise. *)
Theorem X21_summary_counts_drifted (statuses : list NodeClaimStatus.t) :
  statuses ≠ [] →
  ∃ body,
    (onStatuses statuses).1
    = [ClearScreen; Title; Rule] ++ body
      ++ [Rule;
          if decide (0 < length (filter (λ status,
                                   NodeClaimStatus.Drifted status = true)
                                   statuses))
          then Waiting (length (filter (λ status,
                                  NodeClaimStatus.Drifted status = true)
                                  statuses))
                 (length statuses)
          else AllUndrifted;
          PressCtrlC]
    ∧ length body = 3 * length statuses
    ∧ Forall (λ l, match l with
                   | StatusOf _ _ _ _ | StatusText _ | Blank => True
                   | _ => False
                   end) body.
Proof.
  intros Hne. unfold onStatuses.
  destruct (decide (length statuses = 0)) as [Hlen|_].
  { by destruct statuses. }
  destruct (foldl_showStatus statuses [ClearScreen; Title; Rule] 0)
    as (body & -> & Hlen & Hbody).
  exists body. split; [|done]. cbn [fst Nat.add].
  destruct (decide _); by rewrite <-!app_assoc.
Qed.

Lemma X21_witness :
  ∃ body,
    (onStatuses [Examples.status "node-1" true;
                 Examples.status "node-2" false]).1
    = [ClearScreen; Title; Rule] ++ body
      ++ [Rule;
          if decide (0 < length (filter (λ status,
                                   NodeClaimStatus.Drifted status = true)
                                   [Examples.status "node-1" true;
                                    Examples.status "node-2" false]))
          then Waiting (length (filter (λ status,
                                  NodeClaimStatus.Drifted status = true)
                                  [Examples.status "node-1" true;
                                   Examples.status "node-2" false]))
                 (length [Examples.status "node-1" true;
                          Examples.status "node-2" false])
          else AllUndrifted;
          PressCtrlC]
    ∧ length body
      = 3 * length [Examples.status "node-1" true;
                    Examples.status "node-2" false]
    ∧ Forall (λ l, match l with
                   | StatusOf _ _ _ _ | StatusText _ | Blank => True
                   | _ => False
                   end) body.
Proof.
  apply (X21_summary_counts_drifted [Examples.status "node-1" true;
                                     Examples.status "node-2" false]).
  discriminate.
Defined.

End StatusProperties.

(** * From the catalogue to the plan *)

Section EndToEnd.

Import nodeclasses amis main program Grammar.

(** The versions of the items that [ExtractVersions] returns are date
    versions of images of the catalogue. *)
Lemma ExtractVersions_elem (catalogue : list AMIInfo) k8sVersion
    versionItems vi :
  ExtractVersions catalogue k8sVersion = inr versionItems →
  vi ∈ versionItems →
  is_date (amis.Version vi) = true
  ∧ ∃ ami, ami ∈ catalogue
           ∧ versionOf k8sVersion (amis.Name ami) = Some (amis.Version vi).
Proof.
  intros ->%ExtractVersions_inr (v & ts & Hin & ->)%versionItemsOf_elem_of.
  apply elem_of_map_to_list in Hin.
  assert (is_Some (versionSetOf catalogue k8sVersion !! v)) as Hv by eauto.
  apply versionSetOf_is_Some in Hv as (ami & Hami & Hv). cbn.
  split; [by eapply versionOf_is_date|]. eauto.
Qed.

(** X22. From the catalogue to the plan: [enter] on the entry of the list
    made from an item that [ExtractVersions] returned leads to the dry run
    for the version of that item, which is the date version, of eight
    digits, of an image of the catalogue for the platform version; and
    every new reference of that dry run parses as a resolved name with
    that date version. *)
Theorem X22_offered_version_gives_resolved_plan
    (nodeClasses : NodeClassList) (catalogue : list AMIInfo)
    (k8sVersion : string) (versionItems : list VersionItem)
    (n : nat) (vi : VersionItem) :
  ExtractVersions catalogue k8sVersion = inr versionItems →
  versionItems !! n = Some vi →
  ∃ i selectedVersion,
    items versionItems !! S n = Some i
    ∧ afterSelection
        (Update {| choice := ""; quitting := false |} (Enter (Some i)))
      = Plan selectedVersion (amis.Version vi)
    ∧ is_date (amis.Version vi) = true
    ∧ (∃ ami, ami ∈ catalogue
              ∧ versionOf k8sVersion (amis.Name ami)
                = Some (amis.Version vi))
    ∧ ∀ c, c ∈ (dryRun nodeClasses selectedVersion).1 →
        ∃ new, ParseAMIName (newAMI c) = inr new
               ∧ nodeclasses.Version new = amis.Version vi.
Proof.
  intros Hextract Hn.
  destruct (ExtractVersions_elem _ _ _ vi Hextract) as [Hdate Hami].
  { by eapply list_elem_of_lookup_2. }
  eexists _, ("v" +:+ amis.Version vi). split.
  { unfold items. rewrite lookup_cons_ne_0 by done. cbn [pred].
    by rewrite list_lookup_fmap, Hn. }
  split.
  { unfold afterSelection. cbn.
    destruct (decide _) as [|_]; [done|]. by destruct (decide _) as [|_]. }
  do 2 (split; [done|]). intros c Hc.
  destruct (planned_references_resolved _ _ _ Hdate Hc)
    as (old & new & _ & Hnew & Hv & _).
  by exists new.
Qed.

Lemma X22_witness :
  ∃ i selectedVersion,
    items [{| amis.Version := "20251001"; Date := "2025-10-01 00:00" |}]
      !! 1 = Some i
    ∧ afterSelection
        (Update {| choice := ""; quitting := false |} (Enter (Some i)))
      = Plan selectedVersion "20251001"
    ∧ is_date "20251001" = true
    ∧ (∃ ami, ami ∈ [Examples.image "domino-eks-1.33-v20251001"
                       "2025-10-01T00:00:00.000Z"]
              ∧ versionOf "1.33" (amis.Name ami) = Some "20251001")
    ∧ ∀ c, c ∈ (dryRun {| Items := [Examples.gpu] |} selectedVersion).1 →
        ∃ new, ParseAMIName (newAMI c) = inr new
               ∧ nodeclasses.Version new = "20251001".
Proof.
  apply (X22_offered_version_gives_resolved_plan
           {| Items := [Examples.gpu] |}
           [Examples.image "domino-eks-1.33-v20251001"
              "2025-10-01T00:00:00.000Z"]
           "1.33"
           [{| amis.Version := "20251001"; Date := "2025-10-01 00:00" |}]
           0 {| amis.Version := "20251001"; Date := "2025-10-01 00:00" |}).
  - vm_compute. reflexivity.
  - reflexivity.
Defined.

End EndToEnd.

(** * Applying the changes *)

Section ApplyProperties.

Import nodeclasses main applying.

Variable cluster : Type.
Variable UpdateNodeClass : cluster → string → string → cluster * outcome.

(** X23. The loop that applies the changes goes on after an update that
    returns an error: unless an update panics, every change is started, in
    order, each of them is reported once, as updated or as failed, and
    the line that all node classes were updated successfully is written
    whatever the number of failures.  When an update panics, the changes
    started are those up to it, and that line is not written. *)
Theorem X23_apply_loop_continues_after_errors
    (σ : cluster) (changes : list change) :
  match applyChanges cluster UpdateNodeClass σ changes with
  | (_, out, None) =>
      attempted out = changes
      ∧ AllUpdated ∈ out
      ∧ updated out ++ failed out ≡ₚ nodeclassName <$> changes
  | (_, out, Some _) =>
      (AllUpdated ∉ out)
      ∧ attempted out ≠ []
      ∧ ∃ rest, changes = attempted out ++ rest
  end.
Proof.
  revert σ. induction changes as [|ch changes IH]; intros σ.
  { cbn. split; [done|]. split; [set_solver|done]. }
  cbn [applyChanges].
  destruct (UpdateNodeClass σ (nodeclassName ch) (newAMI ch))
    as [σ' [[err|]|cause]].
  - specialize (IH σ').
    destruct (applyChanges cluster UpdateNodeClass σ' changes)
      as [[σ'' out] [cause|]]; cbn.
    + destruct IH as (Hall & _ & rest & Hrest).
      split; [|split; [by destruct ch|]].
      * rewrite !not_elem_of_cons. by repeat split.
      * exists rest. unfold attempted in *. destruct ch. cbn. by f_equal.
    + destruct IH as (Hatt & Hall & Hperm).
      split; [unfold attempted in *; destruct ch; cbn; by f_equal|].
      split; [set_solver|].
      unfold updated, failed in *. cbn.
      by rewrite <-Permutation_middle, Hperm.
  - specialize (IH σ').
    destruct (applyChanges cluster UpdateNodeClass σ' changes)
      as [[σ'' out] [cause|]]; cbn.
    + destruct IH as (Hall & _ & rest & Hrest).
      split; [|split; [by destruct ch|]].
      * rewrite !not_elem_of_cons. by repeat split.
      * exists rest. unfold attempted in *. destruct ch. cbn. by f_equal.
    + destruct IH as (Hatt & Hall & Hperm).
      split; [unfold attempted in *; destruct ch; cbn; by f_equal|].
      split; [set_solver|].
      unfold updated, failed in *. cbn. by rewrite Hperm.
  - cbn. split; [by intros [=]%list_elem_of_singleton|].
    split; [by destruct ch|].
    exists changes. by destruct ch.
Qed.

End ApplyProperties.
